(** * gcp-sa-lookup: the load / reconcile / analyse pipeline of [main.go]

    A shallow embedding of the service-account inventory tool.  Go strings
    are byte strings ([string]), Go maps are finite maps ([gmap]), slices
    are lists.  The concurrent fan-out of [concurrentProjectProcessing] is a
    labelled transition system whose labels are the atomic actions of the
    goroutines; the body of its result loop, the CSV loaders and the
    analysis helpers are plain functions. *)

From Stdlib Require Import Ascii String.
From stdpp Require Import base strings list gmap.

(** ** Data model (main.go, lines 15-42) *)

Record Project := mkProject {
  ProjectId : string;
  Name : string
}.

Record ServiceAccount := mkServiceAccount {
  ProjectID : string;
  Email : string;
  UniqueId : string;
  Status : string
}.

Record ProjectAccess := mkProjectAccess {
  AccessProjectID : string;
  HasAccess : string
}.

(** [Error] is Go's [error] interface value: [None] is [nil]. *)
Record projectResult := mkProjectResult {
  ResProject : Project;
  ServiceAccounts : list ServiceAccount;
  Error : option string
}.

#[global] Instance Project_eq_dec : EqDecision Project.
Proof. solve_decision. Defined.
#[global] Instance ServiceAccount_eq_dec : EqDecision ServiceAccount.
Proof. solve_decision. Defined.
#[global] Instance ProjectAccess_eq_dec : EqDecision ProjectAccess.
Proof. solve_decision. Defined.
#[global] Instance projectResult_eq_dec : EqDecision projectResult.
Proof. solve_decision. Defined.

(** The map [existingAccounts] and the set [processed] of the source. *)
Abbreviation Store := (gmap string ServiceAccount).
Abbreviation Processed := (gmap string bool).

(** [fmt.Sprintf("%s|%s|%s", p, e, u)] (lines 319 and 437). *)
Definition storeKey (p e u : string) : string :=
  p +:+ "|" +:+ e +:+ "|" +:+ u.

(** The identity triple carried by an entry, and the key the loaders and
    the reconciler file it under. *)
Definition identity (a : ServiceAccount) : string * string * string :=
  (ProjectID a, Email a, UniqueId a).

Definition keyOf (a : ServiceAccount) : string :=
  storeKey (ProjectID a) (Email a) (UniqueId a).

(** ** The persisted record file

    The file is seen through [encoding/csv]: the records a reader parses
    from it and the rows [writer.Write] is given, lists of rows of
    fields. *)

Definition Row := list string.

(** The field-count check of a [csv.Reader] with [FieldsPerRecord] left
    at 0, as [csv.NewReader] leaves it: every record must have as many
    fields as the first one. *)
Definition sameWidth (records : list Row) : Prop :=
  match records with
  | [] => True
  | first :: rest => Forall (λ row, length row = length first) rest
  end.

#[global] Instance sameWidth_dec records : Decision (sameWidth records).
Proof. destruct records; simpl; apply _. Defined.

(** [records, _ := reader.ReadAll()] (lines 312 and 343) on a file that
    parses into [records]: on a record of another field count [ReadAll]
    returns no records and an error, and the error is dropped. *)
Definition ReadAll (records : list Row) : list Row :=
  if decide (sameWidth records) then records else [].

(** [row[i]]; only evaluated under the length guard of the loops. *)
Definition field (row : Row) (i : nat) : string := default "" (row !! i).

Definition accountOfRow (row : Row) : ServiceAccount :=
  mkServiceAccount (field row 0) (field row 1) (field row 2) (field row 3).

(** Body of the loop of [readExistingCSV] for a data row (lines 318-326). *)
Definition loadRow (accounts : Store) (row : Row) : Store :=
  if decide (4 ≤ length row)
  then <[storeKey (field row 0) (field row 1) (field row 2) := accountOfRow row]> accounts
  else accounts.

(** [readExistingCSV] (lines 305-330).  [None] is a file that cannot be
    opened, [Some records] one that parses into [records]; index 0 of what
    [ReadAll] returns is the header. *)
Definition readExistingCSV (file : option (list Row)) : Store :=
  match file with
  | None => ∅
  | Some records => foldl loadRow ∅ (drop 1 (ReadAll records))
  end.

(** Body of the loop of [readExistingCSVForAnalysis] (lines 345-353):
    the analysis store is keyed by the subject id alone. *)
Definition loadRowForAnalysis (accounts : Store) (row : Row) : Store :=
  if decide (length row < 4)
  then accounts
  else <[field row 2 := accountOfRow row]> accounts.

(** [readExistingCSVForAnalysis] (lines 332-357). *)
Definition readExistingCSVForAnalysis (file : option (list Row)) : Store :=
  match file with
  | None => ∅
  | Some records => foldl loadRowForAnalysis ∅ (drop 1 (ReadAll records))
  end.

Definition csvHeader : Row := ["ProjectID"; "Email"; "SubjectID"; "Status"].

Definition rowOfAccount (acc : ServiceAccount) : Row :=
  [ProjectID acc; Email acc; UniqueId acc; Status acc].

(** [writeCSV] (lines 359-373).  [entries] is the sequence in which
    [range accounts] visits the map, which Go leaves unspecified. *)
Definition writeCSV (entries : list (string * ServiceAccount)) : list Row :=
  csvHeader :: map (λ kv, rowOfAccount kv.2) entries.

(** What a field written by a [csv.Writer] is when a [csv.Reader] reads it
    back: the writer quotes a field that holds a carriage return or a line
    feed, and the reader drops a carriage return that stands right before
    a line feed. *)
Definition isCR (a : ascii) : bool := bool_decide (a = "013"%char).
Definition isLF (a : ascii) : bool := bool_decide (a = "010"%char).

Fixpoint readBack (s : string) : string :=
  match s with
  | EmptyString => EmptyString
  | String a rest =>
      match rest with
      | EmptyString => s
      | String b rest' =>
          if isCR a && isLF b
          then String b (readBack rest')
          else String a (readBack rest)
      end
  end.

(** A carriage return right before a line feed somewhere in a field. *)
Fixpoint hasCRLF (s : string) : bool :=
  match s with
  | EmptyString => false
  | String a rest =>
      match rest with
      | EmptyString => false
      | String b _ => (isCR a && isLF b) || hasCRLF rest
      end
  end.

(** The file that holds the rows given to a [csv.Writer], as the records a
    reader parses from it. *)
Definition csvFile (rows : list Row) : option (list Row) :=
  Some ((λ row : list string, readBack <$> row) <$> (rows : list (list string))).

(** ** The reconciler: body of the result loop (lines 421-442) *)

Record Recon := mkRecon {
  existingAccounts : Store;
  accessStatuses : list ProjectAccess;
  processed : Processed
}.

(** Lines 437-438: one upsert, status forced to "active". *)
Definition upsert (projectId : string) (m : Store) (acc : ServiceAccount) : Store :=
  <[storeKey projectId (Email acc) (UniqueId acc) :=
      mkServiceAccount projectId (Email acc) (UniqueId acc) "active"]> m.

(** Lines 424-440: what the loop does with one received outcome. *)
Definition reconcile (st : Recon) (res : projectResult) : Recon :=
  let pid := ProjectId (ResProject res) in
  match Error res with
  | Some _ =>
      mkRecon (existingAccounts st)
              (accessStatuses st ++ [mkProjectAccess pid "no"])
              (processed st)
  | None =>
      mkRecon (foldl (upsert pid) (existingAccounts st) (ServiceAccounts res))
              (accessStatuses st ++ [mkProjectAccess pid "yes"])
              (<[pid := true]> (processed st))
  end.

(** The whole loop over the outcomes in the order they are received. *)
Definition reconcileAll (st : Recon) (arrived : list projectResult) : Recon :=
  foldl reconcile st arrived.

(** ** The deletion-marking pass of [main] (lines 88-96) *)

(** [processedProjects[acc.ProjectID]]: a missing key reads [false]. *)
Definition wasProcessed (processedProjects : Processed) (p : string) : bool :=
  default false (processedProjects !! p).

Definition markAs (status : string) (acc : ServiceAccount) : ServiceAccount :=
  mkServiceAccount (ProjectID acc) (Email acc) (UniqueId acc) status.

(** One iteration, for the entry [(key, acc)] that [range] produced. *)
Definition markStep (processedProjects : Processed) (m : Store)
    (kv : string * ServiceAccount) : Store :=
  let key := kv.1 in
  let acc := kv.2 in
  if wasProcessed processedProjects (ProjectID acc) then
    match m !! key with
    | Some _ => <[key := acc]> m
    | None =>
        let acc' := markAs "deleted" acc in
        <[key := acc']> (<[key := acc']> m)
    end
  else m.

(** The pass over the entries in the order [range] visits them. *)
Definition markDeleted (processedProjects : Processed)
    (entries : list (string * ServiceAccount)) (m : Store) : Store :=
  foldl (markStep processedProjects) m entries.

(** ** Load mode of [main] (lines 83-98), for a given arrival order of the
    outcomes: load, reconcile, mark, and the rows handed to [writeCSV]. *)

Definition initialRecon (existing : Store) : Recon := mkRecon existing [] ∅.

Definition loadMode (file : option (list Row)) (arrived : list projectResult)
    : Store * list ProjectAccess :=
  let st := reconcileAll (initialRecon (readExistingCSV file)) arrived in
  (markDeleted (processed st) (map_to_list (existingAccounts st)) (existingAccounts st),
   accessStatuses st).

(** The file after [writeCSV] when [range] visits the map as [map_to_list]
    lists it. *)
Definition persist (m : Store) : option (list Row) :=
  csvFile (writeCSV (map_to_list m)).

(** Entries whose fields are read back from a CSV file as they were
    written. *)
Definition plainAccount (acc : ServiceAccount) : bool :=
  forallb (λ f, negb (hasCRLF f)) (rowOfAccount acc).

Definition plainStore (m : Store) : Prop :=
  map_Forall (λ _ acc, plainAccount acc = true) m.

(** ** The fan-out of [concurrentProjectProcessing] (lines 375-447)

    One worker goroutine per project, the goroutine that closes [results],
    the progress reporter, and the calling goroutine that runs the result
    loop.  Every action below is one atomic step of one goroutine; a
    schedule is the sequence in which the Go scheduler runs them. *)

(** Where a worker stands in its body (lines 399-411). *)
Inductive wphase :=
| WBlocked                       (* at [sem <- struct{}{}] *)
| WHolding                       (* permit taken, [getServiceAccounts] running *)
| WSending (res : projectResult) (* at [results <- res] *)
| WSent                          (* send done, deferred [<-sem] pending *)
| WReleased                      (* permit returned, deferred [wg.Done()] pending *)
| WExited.

#[global] Instance wphase_eq_dec : EqDecision wphase.
Proof. solve_decision. Defined.

(** Where the calling goroutine stands in the result loop (lines 421-442). *)
Inductive cphase :=
| CRange                                    (* at [for res := range results] *)
| CLocked (i : nat) (res : projectResult)   (* received, at [progress <- 1] *)
| CSignalled (i : nat) (res : projectResult)(* signal sent, at the [if] *)
| CReturned.                                (* loop left, [processed] returned *)

Record Pipeline := mkPipeline {
  workers : list wphase;   (* one per project, by index *)
  permits : nat;           (* tokens inside [sem] *)
  closed : bool;           (* [results] closed *)
  consumer : cphase;
  buffered : nat;          (* signals waiting inside [progress] *)
  rendered : nat;          (* the reporter's local counter [processed] *)
  recon : Recon
}.

Inductive action :=
| Acquire (i : nat)     (* worker i: [sem <- struct{}{}] *)
| Query (i : nat)       (* worker i: [getServiceAccounts] returns *)
| Handoff (i : nat)     (* worker i sends on [results], the loop receives *)
| Signal (i : nat)      (* loop: [mu.Lock(); progress <- 1] *)
| Reconcile (i : nat)   (* loop: the [if], then [mu.Unlock()] *)
| Release (i : nat)     (* worker i: deferred [<-sem] *)
| Exit (i : nat)        (* worker i: deferred [wg.Done()] *)
| Close                 (* closer: [wg.Wait()] passed, [close(results)] *)
| Finish                (* loop: [range] sees the closed channel *)
| Render.               (* reporter: one receive from [progress] *)

Definition isExited (w : wphase) : bool :=
  match w with WExited => true | _ => false end.

Section Dispatch.
(** The Directory Client: what [getServiceAccounts] answers for a project
    id during the run, Go's pair [(accounts, err)]. *)
Variable getServiceAccounts : string → list ServiceAccount * option string.
Variable projects : list Project.
(** The value of the [-c] flag, capacity of [sem]. *)
Variable concurrency : nat.

(** Lines 404-409. *)
Definition query (p : Project) : projectResult :=
  let r := getServiceAccounts (ProjectId p) in
  mkProjectResult p r.1 r.2.

Definition setWorker (s : Pipeline) (i : nat) (w : wphase) : Pipeline :=
  mkPipeline (<[i := w]> (workers s)) (permits s) (closed s) (consumer s)
             (buffered s) (rendered s) (recon s).

Definition setPermits (s : Pipeline) (n : nat) : Pipeline :=
  mkPipeline (workers s) n (closed s) (consumer s)
             (buffered s) (rendered s) (recon s).

Definition setConsumer (s : Pipeline) (c : cphase) : Pipeline :=
  mkPipeline (workers s) (permits s) (closed s) c
             (buffered s) (rendered s) (recon s).

Definition step (s : Pipeline) (a : action) : option Pipeline :=
  match a with
  | Acquire i =>
      match workers s !! i with
      | Some WBlocked =>
          if decide (permits s < concurrency)
          then Some (setPermits (setWorker s i WHolding) (S (permits s)))
          else None
      | _ => None
      end
  | Query i =>
      match workers s !! i, projects !! i with
      | Some WHolding, Some p => Some (setWorker s i (WSending (query p)))
      | _, _ => None
      end
  | Handoff i =>
      match workers s !! i, consumer s, closed s with
      | Some (WSending res), CRange, false =>
          Some (setConsumer (setWorker s i WSent) (CLocked i res))
      | _, _, _ => None
      end
  | Signal i =>
      match consumer s with
      | CLocked j res =>
          if decide (i = j ∧ buffered s < length projects)
          then Some (mkPipeline (workers s) (permits s) (closed s)
                       (CSignalled j res) (S (buffered s)) (rendered s) (recon s))
          else None
      | _ => None
      end
  | Reconcile i =>
      match consumer s with
      | CSignalled j res =>
          if decide (i = j)
          then Some (mkPipeline (workers s) (permits s) (closed s)
                       CRange (buffered s) (rendered s) (reconcile (recon s) res))
          else None
      | _ => None
      end
  | Release i =>
      match workers s !! i with
      | Some WSent => Some (setPermits (setWorker s i WReleased) (pred (permits s)))
      | _ => None
      end
  | Exit i =>
      match workers s !! i with
      | Some WReleased => Some (setWorker s i WExited)
      | _ => None
      end
  | Close =>
      if forallb isExited (workers s) && negb (closed s)
      then Some (mkPipeline (workers s) (permits s) true (consumer s)
                   (buffered s) (rendered s) (recon s))
      else None
  | Finish =>
      match consumer s, closed s with
      | CRange, true => Some (setConsumer s CReturned)
      | _, _ => None
      end
  | Render =>
      match buffered s with
      | S n => Some (mkPipeline (workers s) (permits s) (closed s) (consumer s)
                       n (S (rendered s)) (recon s))
      | O => None
      end
  end.

(** Running a schedule; [None] when it asks for a step that is not enabled. *)
Fixpoint exec (s : Pipeline) (sched : list action) : option Pipeline :=
  match sched with
  | [] => Some s
  | a :: sched' =>
      match step s a with
      | Some s' => exec s' sched'
      | None => None
      end
  end.

(** The state when the loop over [projects] has started every worker:
    [processed] is fresh, [existing] and [statuses] are the caller's. *)
Definition start (existing : Store) (statuses : list ProjectAccess) : Pipeline :=
  mkPipeline ((λ _, WBlocked) <$> projects) 0 false CRange 0 0
             (mkRecon existing statuses ∅).

(** The function has returned. *)
Definition returned (s : Pipeline) : Prop := consumer s = CReturned.

(** The worker indices in the order their outcomes were received. *)
Definition arrivals (sched : list action) : list nat :=
  omap (λ a, match a with Handoff i => Some i | _ => None end) sched.

(** The outcome stream a schedule produces. *)
Definition outcomes (sched : list action) : list projectResult :=
  omap (λ i, query <$> projects !! i) (arrivals sched).
End Dispatch.

(** The Access Status Record of an outcome (lines 424-433). *)
Definition accessOf (res : projectResult) : ProjectAccess :=
  mkProjectAccess (ProjectId (ResProject res))
                  (match Error res with Some _ => "no" | None => "yes" end).

(** An action occurs in a schedule before position [k]. *)
Definition occursBefore (sched : list action) (a : action) (k : nat) : Prop :=
  ∃ j, j < k ∧ sched !! j = Some a.

(** ** Analysis mode: the bulk subject-id lookup (lines 212-237) *)

(** [strings.Split(s, sep)] for a one-byte separator: the pieces between
    the separators, [[""]] for the empty string. *)
Fixpoint Split (s : string) (sep : ascii) : list string :=
  match s with
  | EmptyString => [EmptyString]
  | String c rest =>
      if Ascii.eqb c sep then EmptyString :: Split rest sep
      else match Split rest sep with
           | piece :: pieces => String c piece :: pieces
           | [] => [String c EmptyString]
           end
  end.

(** The white space of [strings.TrimSpace], i.e. of [unicode.IsSpace], by
    UTF-8 encoding: the six ASCII characters, U+0085 and U+00A0 on two
    bytes, U+1680, U+2000-U+200A, U+2028, U+2029, U+202F, U+205F and U+3000
    on three. *)
Definition asciiSpace (a : ascii) : bool :=
  let n := nat_of_ascii a in
  (9 <=? n) && (n <=? 13) || (n =? 32).

Definition space2 (a b : ascii) : bool :=
  (nat_of_ascii a =? 194) &&
  ((nat_of_ascii b =? 133) || (nat_of_ascii b =? 160)).

Definition space3 (a b c : ascii) : bool :=
  let x := nat_of_ascii a in
  let y := nat_of_ascii b in
  let z := nat_of_ascii c in
  (x =? 225) && (y =? 154) && (z =? 128)
  || (x =? 226) && (y =? 128)
     && ((128 <=? z) && (z <=? 138) || (z =? 168) || (z =? 169) || (z =? 175))
  || (x =? 226) && (y =? 129) && (z =? 159)
  || (x =? 227) && (y =? 128) && (z =? 128).

(** Leading white-space runes removed. *)
Fixpoint trimLeft (s : string) : string :=
  match s with
  | EmptyString => EmptyString
  | String a s1 =>
      if asciiSpace a then trimLeft s1 else
      match s1 with
      | EmptyString => s
      | String b s2 =>
          if space2 a b then trimLeft s2 else
          match s2 with
          | EmptyString => s
          | String c s3 => if space3 a b c then trimLeft s3 else s
          end
      end
  end.

(** The same from the end, on the reversed string. *)
Fixpoint trimReversed (r : string) : string :=
  match r with
  | EmptyString => EmptyString
  | String a r1 =>
      if asciiSpace a then trimReversed r1 else
      match r1 with
      | EmptyString => r
      | String b r2 =>
          if space2 b a then trimReversed r2 else
          match r2 with
          | EmptyString => r
          | String c r3 => if space3 c b a then trimReversed r3 else r
          end
      end
  end.

Definition TrimSpace (s : string) : string :=
  String.rev (trimReversed (String.rev (trimLeft s))).

(** The inner loop (lines 224-230): the first visited account with the
    subject id, if any. *)
Definition lookupSubject (entries : list (string * ServiceAccount))
    (subjectID : string) : option ServiceAccount :=
  (λ hit, hit.2.2) <$> list_find (λ kv, UniqueId kv.2 = subjectID) entries.

(** One iteration of the outer loop (lines 217-234) on the pair
    [(found, missing)]. *)
Definition bulkStep (entries : list (string * ServiceAccount))
    (fm : list ServiceAccount * list string) (rawID : string)
    : list ServiceAccount * list string :=
  let subjectID := TrimSpace rawID in
  if decide (subjectID = "") then fm
  else match lookupSubject entries subjectID with
       | Some acc => (fm.1 ++ [acc], fm.2)
       | None => (fm.1, fm.2 ++ [subjectID])
       end.

(** [bulkSubjectIDLookup]: the pair it hands to [printBulkResults].
    [map_to_list accounts] stands for the order in which [range accounts]
    visits the map; which ids are found and which are missing does not
    depend on it. *)
Definition bulkSubjectIDLookup (accounts : Store) (input : string)
    : list ServiceAccount * list string :=
  foldl (bulkStep (map_to_list accounts)) ([], []) (Split input ",").

(** The ids the lookup works through, and whether one is stored. *)
Definition requestedIDs (input : string) : list string :=
  filter (λ id, id ≠ "") (TrimSpace <$> Split input ",").

Definition stored (accounts : Store) (id : string) : Prop :=
  ∃ k acc, accounts !! k = Some acc ∧ UniqueId acc = id.

(** ** What splitting and trimming mean

    The notions [Split] and [TrimSpace] are measured against. *)

(** [strings.Join(pieces, sep)], the inverse of [Split]. *)
Fixpoint Join (pieces : list string) (sep : ascii) : string :=
  match pieces with
  | [] => EmptyString
  | [piece] => piece
  | piece :: rest => piece +:+ String sep (Join rest sep)
  end.

(** One white-space rune, as its UTF-8 bytes. *)
Inductive spaceRune : string → Prop :=
| spaceRune1 a : asciiSpace a = true → spaceRune (String a EmptyString)
| spaceRune2 a b : space2 a b = true → spaceRune (String a (String b EmptyString))
| spaceRune3 a b c :
    space3 a b c = true → spaceRune (String a (String b (String c EmptyString))).

(** A run of white-space runes. *)
Inductive spaceRun : string → Prop :=
| spaceRun_nil : spaceRun EmptyString
| spaceRun_cons w s : spaceRune w → spaceRun s → spaceRun (w +:+ s).

Definition startsWithSpace (s : string) : Prop :=
  ∃ w rest, spaceRune w ∧ s = w +:+ rest.

Definition endsWithSpace (s : string) : Prop :=
  ∃ rest w, spaceRune w ∧ s = rest +:+ w.

(** ** Auxiliary notions used in the statements *)

(** The map writes an outcome causes, in program order (lines 436-439). *)
Definition writes (res : projectResult) : list (string * ServiceAccount) :=
  let pid := ProjectId (ResProject res) in
  match Error res with
  | Some _ => []
  | None =>
      (λ acc, (storeKey pid (Email acc) (UniqueId acc),
               mkServiceAccount pid (Email acc) (UniqueId acc) "active"))
        <$> ServiceAccounts res
  end.

Definition assign (m : Store) (kv : string * ServiceAccount) : Store :=
  <[kv.1 := kv.2]> m.

(** The value the last assignment to [k] in a sequence leaves there. *)
Fixpoint lastWrite (k : string) (ws : list (string * ServiceAccount))
    : option ServiceAccount :=
  match ws with
  | [] => None
  | kv :: ws' =>
      match lastWrite k ws' with
      | Some v => Some v
      | None => if decide (kv.1 = k) then Some kv.2 else None
      end
  end.

(** Every entry is filed under the key of its own fields. *)
Definition wellKeyed (m : Store) : Prop :=
  ∀ k acc, m !! k = Some acc → k = keyOf acc.

(** The key of a data row with at least four columns. *)
Definition rowKey (row : Row) : string :=
  storeKey (field row 0) (field row 1) (field row 2).

(** The string holds no "|". *)
Fixpoint noBar (s : string) : bool :=
  match s with
  | EmptyString => true
  | String c s' => negb (Ascii.eqb c "|") && noBar s'
  end.

(** The outcome succeeded ([res.Error == nil]). *)
Definition succeeded (res : projectResult) : Prop := Error res = None.

(** The store key an outcome files a returned account under. *)
Definition keyIn (res : projectResult) (acc : ServiceAccount) : string :=
  storeKey (ProjectId (ResProject res)) (Email acc) (UniqueId acc).

#[global] Instance stored_dec accounts id : Decision (stored accounts id).
Proof.
  refine (cast_if (decide (Exists (λ kv, UniqueId kv.2 = id) (map_to_list accounts))));
    unfold stored.
  - apply Exists_exists in e as [[k acc] [Hin Hid]].
    apply elem_of_map_to_list in Hin. by exists k, acc.
  - intros (k & acc & Hk & Hid). apply n, Exists_exists.
    exists (k, acc). split; [by apply elem_of_map_to_list|done].
Defined.

(** ** Notions for reasoning about schedules *)

(** The worker's outcome has been received by the result loop. *)
Definition delivered (w : wphase) : bool :=
  match w with WSent | WReleased | WExited => true | _ => false end.

(** The worker has a token in [sem]: from [sem <- struct{}{}] up to the
    deferred [<-sem]. *)
Definition holdsPermit (w : wphase) : bool :=
  match w with WHolding | WSending _ | WSent => true | _ => false end.

Definition holders (ws : list wphase) : nat :=
  length (filter (λ w, holdsPermit w = true) ws).

(** The worker indices whose outcomes have been reconciled, and those for
    which the progress signal has been sent, in order. *)
Definition reconciled (sched : list action) : list nat :=
  omap (λ a, match a with Reconcile i => Some i | _ => None end) sched.

Definition signalled (sched : list action) : list nat :=
  omap (λ a, match a with Signal i => Some i | _ => None end) sched.

(** The outcomes of the workers with the given indices. *)
Definition resultsAt (client : string → list ServiceAccount * option string)
    (projects : list Project) (indices : list nat) : list projectResult :=
  omap (λ i, query client <$> projects !! i) indices.

(** Neither waiting for a permit nor finished. *)
Definition busy (w : wphase) : bool :=
  match w with WBlocked | WExited => false | _ => true end.

(** Steps a goroutine still has before it: every action lowers the sum. *)
Definition workerSteps (w : wphase) : nat :=
  match w with
  | WBlocked => 8 | WHolding => 7 | WSending _ => 6
  | WSent => 2 | WReleased => 1 | WExited => 0
  end.

Definition consumerSteps (c : cphase) : nat :=
  match c with CLocked _ _ => 4 | CSignalled _ _ => 2 | CRange => 1 | CReturned => 0 end.

Definition stepsLeft (s : Pipeline) : nat :=
  sum_list (workerSteps <$> workers s) + consumerSteps (consumer s)
  + (if closed s then 0 else 1) + buffered s.

(** What holds of the state reached by running [sched] from a start state
    whose reconciler state is [r0]. *)
Record Inv (client : string → list ServiceAccount * option string)
    (projects : list Project) (concurrency : nat) (r0 : Recon)
    (sched : list action) (s : Pipeline) : Prop := mkInv {
  inv_length : length (workers s) = length projects;
  inv_nodup : NoDup (arrivals sched);
  inv_delivered : ∀ i,
    i ∈ arrivals sched ↔ ∃ w, workers s !! i = Some w ∧ delivered w = true;
  inv_acquired : ∀ i w,
    workers s !! i = Some w → w ≠ WBlocked → Acquire i ∈ sched;
  inv_sending : ∀ i res,
    workers s !! i = Some (WSending res) → query client <$> projects !! i = Some res;
  inv_consumer :
    match consumer s with
    | CRange | CReturned =>
        arrivals sched = reconciled sched ∧ signalled sched = reconciled sched
    | CLocked i res =>
        arrivals sched = reconciled sched ++ [i]
        ∧ signalled sched = reconciled sched
        ∧ query client <$> projects !! i = Some res
    | CSignalled i res =>
        arrivals sched = reconciled sched ++ [i]
        ∧ signalled sched = reconciled sched ++ [i]
        ∧ query client <$> projects !! i = Some res
    end;
  inv_buffer : buffered s + rendered s = length (signalled sched);
  inv_recon : recon s = reconcileAll r0 (resultsAt client projects (reconciled sched));
  inv_closed : closed s = true → ∀ i w, workers s !! i = Some w → w = WExited;
  inv_returned : consumer s = CReturned → closed s = true;
  inv_permits : permits s = holders (workers s) ∧ permits s ≤ concurrency
}.

(** ** Concrete directories and runs used as examples *)

Module Examples.
Definition project (id : string) : Project := mkProject id id.

(** An account as [json.Unmarshal] fills it in: email and unique id. *)
Definition account (email uid : string) : ServiceAccount :=
  mkServiceAccount "" email uid "".

Definition denied : list ServiceAccount * option string :=
  ([], Some "exit status 1").

(** Project "a" holds one account, every other query fails. *)
Definition onlyA (pid : string) : list ServiceAccount * option string :=
  if decide (pid = "a") then ([account "b|c" "d"], None) else denied.

(** Projects "a|b" and "a" hold one account each. *)
Definition twoProjects (pid : string) : list ServiceAccount * option string :=
  if decide (pid = "a|b") then ([account "c" "d"], None)
  else if decide (pid = "a") then ([account "b|c" "d"], None)
  else denied.




(** A byte string from its byte values. *)
Definition bytes (codes : list nat) : string :=
  foldr (λ n s, String (ascii_of_nat n) s) EmptyString codes.

(** Every white-space rune of [unicode.IsSpace] once: tab, line feed,
    vertical tab, form feed, carriage return, space, U+0085, U+00A0,
    U+1680, U+2000, U+200A, U+2028, U+2029, U+202F, U+205F, U+3000. *)
Definition whiteSpace : string :=
  bytes [9; 10; 11; 12; 13; 32; 194; 133; 194; 160; 225; 154; 128;
         226; 128; 128; 226; 128; 138; 226; 128; 168; 226; 128; 169;
         226; 128; 175; 226; 129; 159; 227; 128; 128].

(** U+200B, the zero-width space, which is not white space. *)
Definition zeroWidth : string := bytes [226; 128; 139].

(** The bulk input "111,333, 222" with white space of several kinds around
    the ids and two pieces that hold nothing else. *)
Definition paddedInput : string :=
  bytes [9; 32] +:+ "111" +:+ bytes [13; 10] +:+ "," +:+ bytes [32; 11] +:+ ",,"
  +:+ bytes [194; 160] +:+ "333" +:+ bytes [227; 128; 128] +:+ ", 222 "
  +:+ bytes [12; 226; 128; 168].

(** Project "p" holds two accounts. *)
Definition twoAccounts (pid : string) : list ServiceAccount * option string :=
  if decide (pid = "p") then ([account "x|y" "z"; account "x" "y|z"], None)
  else denied.

(** Project "p1" holds (e1, s1), "p3" holds (e3, s3), the others fail. *)
Definition directory (pid : string) : list ServiceAccount * option string :=
  if decide (pid = "p1") then ([account "e1" "s1"], None)
  else if decide (pid = "p3") then ([account "e3" "s3"], None)
  else denied.
End Examples.

(** ** Notions for the loaders, the worker bodies and analysis mode *)

(** The last data row of a file that is filed under key [k] by a loader
    whose key function is [key]. *)
Definition lastRowFor (key : Row → string) (k : string) (rows : list Row)
    : option Row :=
  last (filter (λ r, 4 ≤ length r ∧ key r = k) rows).

(** Subject ids identify the entries of a store. *)
Definition subjectsDistinct (m : Store) : Prop :=
  ∀ k1 k2 a1 a2, m !! k1 = Some a1 → m !! k2 = Some a2 →
                 UniqueId a1 = UniqueId a2 → k1 = k2.

(** How far a worker has come in its body, and the step of its body an
    action is, with the worker it belongs to. *)
Definition phaseRank (w : wphase) : nat :=
  match w with
  | WBlocked => 0 | WHolding => 1 | WSending _ => 2
  | WSent => 3 | WReleased => 4 | WExited => 5
  end.

Definition rankAt (s : Pipeline) (i : nat) : nat :=
  from_option phaseRank 0 (workers s !! i).

Definition workerAction (a : action) : option (nat * nat) :=
  match a with
  | Acquire i => Some (i, 0)
  | Query i => Some (i, 1)
  | Handoff i => Some (i, 2)
  | Release i => Some (i, 3)
  | Exit i => Some (i, 4)
  | _ => None
  end.

(** ** Analysis mode: the three searches (lines 160-210)

    Each search returns what it prints: the accounts handed to
    [printAccount], in the order of the loop, and the flag [found], which
    decides whether the "no accounts" line follows. *)

(** One iteration of the loop of a search: [matches] is its [if]. *)
Definition searchStep (matches : ServiceAccount → bool)
    (out : list ServiceAccount * bool) (kv : string * ServiceAccount)
    : list ServiceAccount * bool :=
  if matches kv.2 then (out.1 ++ [kv.2], true) else out.

Definition searchLoop (matches : ServiceAccount → bool)
    (entries : list (string * ServiceAccount)) : list ServiceAccount * bool :=
  foldl (searchStep matches) ([], false) entries.

(** [searchByProjectID] (lines 160-175). *)
Definition searchByProjectID (accounts : Store) (projectID : string)
    : list ServiceAccount * bool :=
  searchLoop (λ acc, bool_decide (ProjectID acc = projectID)) (map_to_list accounts).

(** [searchBySubjectID] (lines 195-210). *)
Definition searchBySubjectID (accounts : Store) (subjectID : string)
    : list ServiceAccount * bool :=
  searchLoop (λ acc, bool_decide (UniqueId acc = subjectID)) (map_to_list accounts).

(** [strings.Contains]: [substr] occurs in [s]. *)
Fixpoint HasPrefix (s prefix : string) {struct prefix} : bool :=
  match prefix, s with
  | EmptyString, _ => true
  | String a prefix', String b s' => Ascii.eqb a b && HasPrefix s' prefix'
  | String _ _, EmptyString => false
  end.

Fixpoint Contains (s substr : string) : bool :=
  HasPrefix s substr
  || match s with
     | EmptyString => false
     | String _ s' => Contains s' substr
     end.

(** [strings.ToLower]: a string of ASCII bytes has its letters A-Z
    lowered byte by byte; any other string goes through the Unicode case
    mapping of the library, [unicodeLower]. *)
Definition isASCIIbyte (a : ascii) : bool := nat_of_ascii a <? 128.

Fixpoint isASCII (s : string) : bool :=
  match s with
  | EmptyString => true
  | String a s' => isASCIIbyte a && isASCII s'
  end.

Definition lowerByte (a : ascii) : ascii :=
  let n := nat_of_ascii a in
  if (65 <=? n) && (n <=? 90) then ascii_of_nat (n + 32) else a.

Fixpoint lowerASCII (s : string) : string :=
  match s with
  | EmptyString => EmptyString
  | String a s' => String (lowerByte a) (lowerASCII s')
  end.

Definition ToLower (unicodeLower : string → string) (s : string) : string :=
  if isASCII s then lowerASCII s else unicodeLower s.

(** [searchByEmail] (lines 177-193). *)
Definition searchByEmail (unicodeLower : string → string) (accounts : Store)
    (email : string) : list ServiceAccount * bool :=
  let searchTerm := ToLower unicodeLower email in
  searchLoop (λ acc, Contains (ToLower unicodeLower (Email acc)) searchTerm)
             (map_to_list accounts).

(** The string holds no comma. *)
Fixpoint noComma (s : string) : bool :=
  match s with
  | EmptyString => true
  | String c s' => negb (Ascii.eqb c ",") && noComma s'
  end.

(** * Properties *)

(** ** Maps as sequences of assignments *)

Lemma lastWrite_app k ws1 ws2 :
  lastWrite k (ws1 ++ ws2) =
  match lastWrite k ws2 with Some v => Some v | None => lastWrite k ws1 end.
Proof.
  induction ws1 as [|kv ws1 IH]; simpl.
  - by destruct (lastWrite k ws2).
  - rewrite IH. by destruct (lastWrite k ws2).
Qed.

Lemma lookup_foldl_assign ws (m : Store) k :
  foldl assign m ws !! k =
  match lastWrite k ws with Some v => Some v | None => m !! k end.
Proof.
  revert m. induction ws as [|[k' v] ws IH]; intros m; simpl; [done|].
  rewrite IH. destruct (lastWrite k ws); [done|].
  unfold assign; simpl. case_decide as Hk.
  - subst. by rewrite lookup_insert_eq.
  - by rewrite lookup_insert_ne.
Qed.

Lemma lastWrite_Some_elem k ws v :
  lastWrite k ws = Some v → (k, v) ∈ ws.
Proof.
  induction ws as [|[k' v'] ws IH]; simpl; [done|].
  destruct (lastWrite k ws) as [w|].
  - intros [= <-]. right. by apply IH.
  - case_decide; [|done]. intros [= <-]. subst. left.
Qed.

Lemma lastWrite_None k ws :
  lastWrite k ws = None ↔ ∀ v, (k, v) ∉ ws.
Proof.
  induction ws as [|[k' v'] ws IH]; simpl.
  - split; [intros _ v Hv; inversion Hv | done].
  - destruct (lastWrite k ws) as [w|] eqn:Hw.
    + split; [done|]. intros H. exfalso.
      apply (H w). right. by apply lastWrite_Some_elem.
    + case_decide as Hk; simpl in Hk.
      * split; [done|]. intros H. exfalso. apply (H v'). subst. left.
      * split; [|done]. intros _ v Hv.
        apply elem_of_cons in Hv as [[= ? ?]|Hv]; [by subst|].
        destruct IH as [IH _]. by apply (IH eq_refl v).
Qed.

Lemma lastWrite_is_Some k ws v :
  (k, v) ∈ ws → is_Some (lastWrite k ws).
Proof.
  intros Hin. destruct (lastWrite k ws) eqn:E; [by eexists|].
  exfalso. by eapply lastWrite_None.
Qed.

(** ** The reconciler as a sequence of assignments *)

Lemma upserts_writes res (m : Store) :
  succeeded res →
  foldl (upsert (ProjectId (ResProject res))) m (ServiceAccounts res)
  = foldl assign m (writes res).
Proof.
  unfold succeeded, writes. intros ->.
  revert m. induction (ServiceAccounts res) as [|a l IH]; intros m; simpl; [done|].
  by rewrite IH.
Qed.

Lemma reconcile_store st res :
  existingAccounts (reconcile st res) = foldl assign (existingAccounts st) (writes res).
Proof.
  unfold reconcile. destruct (Error res) eqn:E.
  - unfold writes. by rewrite E.
  - simpl. by apply upserts_writes.
Qed.

Lemma reconcile_access st res :
  accessStatuses (reconcile st res) = accessStatuses st ++ [accessOf res].
Proof. unfold reconcile, accessOf. by destruct (Error res). Qed.

Lemma reconcileAll_snoc st arrived res :
  reconcileAll st (arrived ++ [res]) = reconcile (reconcileAll st arrived) res.
Proof. unfold reconcileAll. by rewrite foldl_snoc. Qed.

Lemma reconcileAll_store arrived st :
  existingAccounts (reconcileAll st arrived)
  = foldl assign (existingAccounts st) (arrived ≫= writes).
Proof.
  revert st. induction arrived as [|res arrived IH]; intros st; simpl; [done|].
  unfold reconcileAll in *. simpl. rewrite IH, reconcile_store.
  by rewrite foldl_app.
Qed.

Lemma reconcileAll_access arrived st :
  accessStatuses (reconcileAll st arrived) = accessStatuses st ++ (accessOf <$> arrived).
Proof.
  revert st. induction arrived as [|res arrived IH]; intros st; simpl.
  - by rewrite app_nil_r.
  - unfold reconcileAll in *. simpl. rewrite IH, reconcile_access.
    by rewrite <- app_assoc.
Qed.

(** ** The deletion-marking pass changes nothing *)

Lemma markStep_present processedProjects (m : Store) k acc :
  m !! k = Some acc → markStep processedProjects m (k, acc) = m.
Proof.
  intros Hk. unfold markStep; simpl.
  destruct (wasProcessed _ _); [|done].
  rewrite Hk. by apply insert_id.
Qed.

Lemma markDeleted_unchanged processedProjects entries (m : Store) :
  (∀ k acc, (k, acc) ∈ entries → m !! k = Some acc) →
  markDeleted processedProjects entries m = m.
Proof.
  unfold markDeleted. induction entries as [|[k acc] entries IH]; intros H; simpl; [done|].
  rewrite markStep_present by (apply H; left).
  apply IH. intros k' acc' Hin. apply H. by right.
Qed.

Lemma markDeleted_range processedProjects (m : Store) :
  markDeleted processedProjects (map_to_list m) m = m.
Proof.
  apply markDeleted_unchanged. intros k acc. by rewrite elem_of_map_to_list.
Qed.

Lemma loadMode_store file arrived :
  (loadMode file arrived).1
  = foldl assign (readExistingCSV file) (arrived ≫= writes).
Proof.
  unfold loadMode; simpl. rewrite markDeleted_range.
  by rewrite reconcileAll_store.
Qed.

Lemma loadMode_access file arrived :
  (loadMode file arrived).2 = accessOf <$> arrived.
Proof. unfold loadMode; simpl. by rewrite reconcileAll_access. Qed.

(** ** Loading the record file *)

Lemma ReadAll_sameWidth records :
  sameWidth records → ReadAll records = records.
Proof. intros H. unfold ReadAll. by case_decide. Qed.

Lemma ReadAll_ragged records :
  ¬ sameWidth records → ReadAll records = [].
Proof. intros H. unfold ReadAll. by case_decide. Qed.

Lemma ReadAll_other_width header pre row post :
  length row ≠ length header → ReadAll (header :: pre ++ row :: post) = [].
Proof.
  intros Hne. apply ReadAll_ragged. simpl. intros H.
  apply Forall_app in H as [_ H]. by apply Forall_cons in H as [H _].
Qed.


Section Loader.
(** Both loaders run the same loop up to the key a row is filed under. *)
Variable load : Store → Row → Store.
Variable key : Row → string.
Hypothesis load_eq : ∀ m row,
  load m row = if decide (4 ≤ length row)
               then <[key row := accountOfRow row]> m else m.

Lemma load_full m row :
  4 ≤ length row → load m row = <[key row := accountOfRow row]> m.
Proof. intros H. rewrite load_eq. by case_decide. Qed.

Lemma load_rows_is_Some rows m k :
  is_Some (m !! k) → is_Some (foldl load m rows !! k).
Proof.
  revert m. induction rows as [|r rows IH]; intros m Hk; simpl; [done|].
  apply IH. rewrite load_eq. case_decide; [|done].
  destruct (decide (key r = k)) as [->|Hne].
  - rewrite lookup_insert_eq. by eexists.
  - by rewrite lookup_insert_ne.
Qed.

Lemma load_rows_keep rows m k acc :
  m !! k = Some acc →
  (∀ r, r ∈ rows → 4 ≤ length r → key r ≠ k) →
  foldl load m rows !! k = Some acc.
Proof.
  revert m. induction rows as [|r rows IH]; intros m Hk Hfree; simpl; [done|].
  apply IH.
  - rewrite load_eq. case_decide as Hlen; [|done].
    rewrite lookup_insert_ne; [done|]. apply Hfree; [left|done].
  - intros r' Hin. apply Hfree. by right.
Qed.

Lemma load_entry pre row post m :
  4 ≤ length row →
  is_Some (foldl load m (pre ++ row :: post) !! key row) ∧
  ((∀ r, r ∈ post → 4 ≤ length r → key r ≠ key row) →
   foldl load m (pre ++ row :: post) !! key row = Some (accountOfRow row)).
Proof.
  intros H. rewrite foldl_app. simpl. rewrite load_full by done. split.
  - apply load_rows_is_Some. rewrite lookup_insert_eq. by eexists.
  - intros Hfree. apply load_rows_keep; [|done]. by rewrite lookup_insert_eq.
Qed.
End Loader.

Lemma loadRow_eq m row :
  loadRow m row = if decide (4 ≤ length row)
                  then <[rowKey row := accountOfRow row]> m else m.
Proof. done. Qed.

Lemma loadRowForAnalysis_eq m row :
  loadRowForAnalysis m row = if decide (4 ≤ length row)
                             then <[field row 2 := accountOfRow row]> m else m.
Proof. unfold loadRowForAnalysis. repeat case_decide; (done || lia). Qed.

(** C8. Loading the record file: a data row with fewer than 4 columns is
    not skipped on its own.  The loop tests [len(row) >= 4], but the rows
    come from [ReadAll], which gives up on the first record whose field
    count is not the header's, and the error is dropped: a file with one
    data row of another width than the header loads nothing, in both
    loaders.  In a file whose rows all have the header's width, a data row
    with at least 4 columns yields an entry under its key
    ([project|email|subject] in load mode, the subject id in analysis
    mode), which is that row's account unless a later row takes the key.
    On the file with the four-column header, the rows (p,e,1,active) and
    (q,f,2,deleted) and the two-column row (p,broken) between them, both
    loaders return the empty store; without the short row they return the
    two entries. *)
Theorem C8_ragged_file_loads_nothing (header : Row) (pre post : list Row) (row : Row) :
  (length row ≠ length header →
     readExistingCSV (Some (header :: pre ++ row :: post)) = ∅
     ∧ readExistingCSVForAnalysis (Some (header :: pre ++ row :: post)) = ∅)
  ∧ (sameWidth (header :: pre ++ row :: post) → 4 ≤ length row →
     is_Some (readExistingCSV (Some (header :: pre ++ row :: post)) !! rowKey row)
     ∧ is_Some (readExistingCSVForAnalysis (Some (header :: pre ++ row :: post))
                  !! field row 2)
     ∧ ((∀ r, r ∈ post → rowKey r ≠ rowKey row) →
        readExistingCSV (Some (header :: pre ++ row :: post)) !! rowKey row
          = Some (accountOfRow row))
     ∧ ((∀ r, r ∈ post → field r 2 ≠ field row 2) →
        readExistingCSVForAnalysis (Some (header :: pre ++ row :: post)) !! field row 2
          = Some (accountOfRow row)))
  ∧ (let short := Some [csvHeader; ["p"; "e"; "1"; "active"]; ["p"; "broken"];
                        ["q"; "f"; "2"; "deleted"]] in
     let full := Some [csvHeader; ["p"; "e"; "1"; "active"];
                       ["q"; "f"; "2"; "deleted"]] in
     readExistingCSV short = ∅
     ∧ readExistingCSVForAnalysis short = ∅
     ∧ readExistingCSV full
       = <["q|f|2" := mkServiceAccount "q" "f" "2" "deleted"]>
           (<["p|e|1" := mkServiceAccount "p" "e" "1" "active"]> ∅)
     ∧ readExistingCSVForAnalysis full
       = <["2" := mkServiceAccount "q" "f" "2" "deleted"]>
           (<["1" := mkServiceAccount "p" "e" "1" "active"]> ∅)).
Proof.
  split; [|split].
  - intros Hne. unfold readExistingCSV, readExistingCSVForAnalysis.
    by rewrite ReadAll_other_width.
  - intros Hsame Hfull.
    unfold readExistingCSV, readExistingCSVForAnalysis.
    rewrite ReadAll_sameWidth by done. simpl.
    pose proof (load_entry loadRow rowKey loadRow_eq pre row post ∅ Hfull) as [H1 H2].
    pose proof (load_entry loadRowForAnalysis (λ r, field r 2)
                  loadRowForAnalysis_eq pre row post ∅ Hfull) as [H3 H4].
    split; [done|]. split; [done|]. split.
    + intros Hfree. apply H2. intros r Hr _. by apply Hfree.
    + intros Hfree. apply H4. intros r Hr _. by apply Hfree.
  - by vm_compute.
Qed.

Lemma C8_ragged_file_loads_nothing_witness :
  readExistingCSV (Some [csvHeader; ["p"; "e"; "1"; "active"]; ["p"; "broken"];
                         ["q"; "f"; "2"; "deleted"]]) = ∅
  ∧ readExistingCSV (Some [csvHeader; ["p"; "e"; "1"; "active"];
                           ["q"; "f"; "2"; "deleted"]]) !! "q|f|2"
    = Some (mkServiceAccount "q" "f" "2" "deleted").
Proof.
  split.
  - apply (proj1 (C8_ragged_file_loads_nothing csvHeader [["p"; "e"; "1"; "active"]]
                    [["q"; "f"; "2"; "deleted"]] ["p"; "broken"])).
    simpl. lia.
  - apply (proj1 (proj2 (C8_ragged_file_loads_nothing csvHeader
                           [["p"; "e"; "1"; "active"]] []
                           ["q"; "f"; "2"; "deleted"]))).
    + simpl. repeat constructor.
    + simpl. lia.
    + intros r Hr. inversion Hr.
Defined.

(** ** The deletion-marking pass on the spec's scenario *)

(** C1. The deletion-marking pass of [main] never changes the store: the
    store that is persisted is the reconciled store, for every record file
    and every outcome stream.  On the scenario of the spec (the file holds
    (p1,e1,s1,active) and (p1,e2,s2,active); the query for p1 succeeds and
    returns only (e1,s1)) the entry (e2,s2) is therefore still "active"
    after the run, not "deleted". *)
Theorem C1_absent_entry_stays_active :
  (∀ file arrived,
     (loadMode file arrived).1
       = existingAccounts (reconcileAll (initialRecon (readExistingCSV file)) arrived))
  ∧ (let file := Some [csvHeader; ["p1"; "e1"; "s1"; "active"];
                                  ["p1"; "e2"; "s2"; "active"]] in
     let outcome := mkProjectResult (mkProject "p1" "one")
                      [mkServiceAccount "" "e1" "s1" ""] None in
     (loadMode file [outcome]).1 !! storeKey "p1" "e1" "s1"
       = Some (mkServiceAccount "p1" "e1" "s1" "active")
     ∧ (loadMode file [outcome]).1 !! storeKey "p1" "e2" "s2"
       = Some (mkServiceAccount "p1" "e2" "s2" "active")
     ∧ (loadMode file [outcome]).2 = [mkProjectAccess "p1" "yes"]).
Proof.
  split.
  - intros file arrived. unfold loadMode; simpl. apply markDeleted_range.
  - by vm_compute.
Qed.

(** ** The store key *)

(** C10. The store key is the concatenation project + "|" + email + "|" +
    subject; it is not injective: the distinct triples (p, "x|y", "z") and
    (p, "x", "y|z") have the same key, and upserting the second into a
    store that holds the first replaces the stored entry of the first. *)
Theorem C10_store_key_not_injective :
  (∀ p e u, storeKey p e u = p +:+ "|" +:+ e +:+ "|" +:+ u)
  ∧ ("p", "x|y", "z") ≠ ("p", "x", "y|z")
  ∧ storeKey "p" "x|y" "z" = storeKey "p" "x" "y|z"
  ∧ (∀ (m : Store) status pid st,
       upsert "p"
         (<[storeKey "p" "x|y" "z" := mkServiceAccount "p" "x|y" "z" status]> m)
         (mkServiceAccount pid "x" "y|z" st)
       = <[storeKey "p" "x|y" "z" := mkServiceAccount "p" "x" "y|z" "active"]> m).
Proof.
  split; [done|]. split; [done|]. split; [done|].
  intros m status pid st. unfold upsert; simpl.
  change (storeKey "p" "x" "y|z") with (storeKey "p" "x|y" "z").
  apply insert_insert_eq.
Qed.

(** ** The bulk lookup *)

Lemma lookupSubject_Some accounts id acc :
  lookupSubject (map_to_list accounts) id = Some acc →
  UniqueId acc = id ∧ ∃ k, accounts !! k = Some acc.
Proof.
  unfold lookupSubject. intros H.
  apply fmap_Some in H as ([i [k a]] & Hfind & ->). simpl.
  apply list_find_Some in Hfind as (Hi & Hid & _). split; [done|].
  exists k. apply elem_of_map_to_list. by eapply list_elem_of_lookup_2.
Qed.

Lemma lookupSubject_None accounts id :
  lookupSubject (map_to_list accounts) id = None ↔ ¬ stored accounts id.
Proof.
  unfold lookupSubject. rewrite fmap_None, list_find_None, Forall_forall. split.
  - intros H (k & acc & Hk & Hid).
    apply (H (k, acc)); [by apply elem_of_map_to_list|done].
  - intros H [k acc] Hin Hid. apply H. exists k, acc.
    split; [by apply elem_of_map_to_list|done].
Qed.

Lemma lookupSubject_stored accounts id :
  stored accounts id → is_Some (lookupSubject (map_to_list accounts) id).
Proof.
  intros H. destruct (lookupSubject _ _) eqn:E; [by eexists|].
  by apply lookupSubject_None in E.
Qed.

Lemma bulk_loop accounts raws found missing :
  let ids := filter (λ id, id ≠ "") (TrimSpace <$> raws) in
  foldl (bulkStep (map_to_list accounts)) (found, missing) raws
  = (found ++ omap (lookupSubject (map_to_list accounts)) ids,
     missing ++ filter (λ id, ¬ stored accounts id) ids).
Proof.
  revert found missing. induction raws as [|raw raws IH]; intros found missing; simpl.
  - by rewrite !app_nil_r.
  - unfold bulkStep at 2. rewrite filter_cons.
    destruct (decide (TrimSpace raw = "")) as [Hempty|Hid].
    + rewrite decide_False by (intros H; by apply H). apply IH.
    + rewrite decide_True by done. simpl.
      destruct (lookupSubject _ (TrimSpace raw)) as [acc|] eqn:Hlk; rewrite IH; simpl.
      * rewrite filter_cons, decide_False.
        -- by rewrite <- app_assoc.
        -- intros Hn. apply lookupSubject_None in Hn. congruence.
      * rewrite filter_cons, decide_True by (by apply lookupSubject_None).
        by rewrite <- app_assoc.
Qed.

Lemma found_ids accounts (ids : list string) :
  UniqueId <$> omap (lookupSubject (map_to_list accounts)) ids
  = filter (stored accounts) ids.
Proof.
  induction ids as [|id ids IH]; simpl; [done|].
  rewrite filter_cons.
  destruct (lookupSubject _ id) as [acc|] eqn:Hlk.
  - apply lookupSubject_Some in Hlk as Hacc. destruct Hacc as [Hid (k & Hk)].
    rewrite decide_True by (by exists k, acc).
    rewrite fmap_cons, Hid. f_equal. exact IH.
  - rewrite decide_False by (by apply lookupSubject_None). done.
Qed.

(** ** Splitting and trimming *)

Lemma Split_cons s : ∃ piece pieces, Split s "," = piece :: pieces.
Proof.
  induction s as [|c s (p & ps & IH)]; simpl; [by eexists _, _|].
  destruct (Ascii.eqb c ","); [by eexists _, _|]. rewrite IH. by eexists _, _.
Qed.

Lemma Join_cons p q pieces sep :
  Join (p :: q :: pieces) sep = p +:+ String sep (Join (q :: pieces) sep).
Proof. done. Qed.

Lemma Split_Join s : Join (Split s ",") "," = s.
Proof.
  induction s as [|c s IH]; [done|]. cbn [Split].
  destruct (Split_cons s) as (p & ps & E). rewrite E in IH |- *.
  destruct (Ascii.eqb c ",") eqn:Hc.
  - apply Ascii.eqb_eq in Hc as ->. by rewrite Join_cons, IH.
  - destruct ps as [|q ps]; [simpl in *; by rewrite IH|].
    rewrite Join_cons in IH |- *. by rewrite <- IH.
Qed.

Lemma Split_pieces s : Forall (λ piece, noComma piece = true) (Split s ",").
Proof.
  induction s as [|c s IH]; simpl; [by repeat constructor|].
  destruct (Ascii.eqb c ",") eqn:Hc; [by constructor|].
  destruct (Split s ",") as [|p ps]; [repeat constructor; simpl; by rewrite Hc|].
  apply Forall_cons in IH as [Hp Hps]. constructor; [|done]. simpl. by rewrite Hc, Hp.
Qed.

Lemma string_app_cons x (a b : string) : String x a +:+ b = String x (a +:+ b).
Proof. done. Qed.

Lemma string_app_nil_l (a : string) : "" +:+ a = a.
Proof. done. Qed.

Ltac unfold_app :=
  repeat (rewrite ?string_app_cons, ?string_app_nil_l in * ).

Lemma string_app_assoc (a b c : string) : (a +:+ b) +:+ c = a +:+ (b +:+ c).
Proof. induction a as [|x a IH]; [done|]. unfold_app. by f_equal. Qed.

Lemma string_app_nil_r (a : string) : a +:+ "" = a.
Proof. induction a as [|x a IH]; [done|]. unfold_app. by f_equal. Qed.

Lemma string_rev_app_eq (s1 s2 : string) : String.rev_app s1 s2 = String.rev s1 +:+ s2.
Proof.
  revert s2. induction s1 as [|a s1 IH]; intros s2; [done|].
  unfold String.rev. simpl. rewrite (IH (String a "")), IH, string_app_assoc. done.
Qed.

Lemma string_rev_cons a (s : string) : String.rev (String a s) = String.rev s +:+ String a "".
Proof. unfold String.rev at 1. simpl. apply string_rev_app_eq. Qed.

Lemma string_rev_app (s1 s2 : string) :
  String.rev (s1 +:+ s2) = String.rev s2 +:+ String.rev s1.
Proof.
  induction s1 as [|a s1 IH]; [by rewrite string_app_nil_r|].
  by rewrite string_app_cons, !string_rev_cons, IH, string_app_assoc.
Qed.

Lemma string_rev_involutive (s : string) : String.rev (String.rev s) = s.
Proof.
  induction s as [|a s IH]; [done|]. by rewrite string_rev_cons, string_rev_app, IH.
Qed.

Lemma spaceRun_app s1 s2 : spaceRun s1 → spaceRun s2 → spaceRun (s1 +:+ s2).
Proof.
  induction 1 as [|w s Hw Hs IH]; intros H2; [done|].
  rewrite string_app_assoc. constructor; [done|]. by apply IH.
Qed.

Lemma spaceRun_rune w : spaceRune w → spaceRun w.
Proof. intros H. rewrite <- (string_app_nil_r w). constructor; [done|constructor]. Qed.

Lemma not_startsWithSpace_nil : ¬ startsWithSpace "".
Proof. intros (w & rest & Hw & E). destruct Hw; discriminate. Qed.

Lemma startsWithSpace_inv s :
  startsWithSpace s →
  match s with
  | String a s1 =>
      asciiSpace a = true
      ∨ match s1 with
        | String b s2 =>
            space2 a b = true
            ∨ match s2 with
              | String c _ => space3 a b c = true
              | EmptyString => False
              end
        | EmptyString => False
        end
  | EmptyString => False
  end.
Proof.
  intros (w & rest & Hw & ->). destruct Hw; unfold_app; auto.
Qed.

(** What [trimLeft] cuts off is a run of white space, and what is left
    does not start with white space. *)
Lemma trimLeft_spec s :
  ∃ pre, s = pre +:+ trimLeft s ∧ spaceRun pre ∧ ¬ startsWithSpace (trimLeft s).
Proof.
  remember (String.length s) as n eqn:Hn.
  revert s Hn. induction (lt_wf n) as [n _ IH]. intros s ->.
  assert (∀ w s', spaceRune w → s = w +:+ s' → trimLeft s = trimLeft s' →
            String.length s' < String.length s →
            ∃ pre, s = pre +:+ trimLeft s ∧ spaceRun pre
                   ∧ ¬ startsWithSpace (trimLeft s)) as Hstrip.
  { intros w s' Hw Es Et Hlen.
    destruct (IH (String.length s') Hlen s' eq_refl) as (pre & E & Hpre & Hno).
    exists (w +:+ pre). rewrite Et. split; [by rewrite string_app_assoc, <- E|].
    split; [by constructor|done]. }
  assert (trimLeft s = s → ¬ startsWithSpace s →
            ∃ pre, s = pre +:+ trimLeft s ∧ spaceRun pre
                   ∧ ¬ startsWithSpace (trimLeft s)) as Hstop.
  { intros -> Hno. exists "". split; [done|]. split; [constructor|done]. }
  destruct s as [|a s1]; [apply Hstop; [done|apply not_startsWithSpace_nil]|].
  destruct (asciiSpace a) eqn:Ha.
  { apply (Hstrip (String a "") s1); [by constructor|done| |simpl; lia].
    cbn [trimLeft]. by rewrite Ha. }
  destruct s1 as [|b s2].
  { apply Hstop; [cbn [trimLeft]; by rewrite Ha|].
    intros H%startsWithSpace_inv. destruct H as [?|[]]. congruence. }
  destruct (space2 a b) eqn:Hab.
  { apply (Hstrip (String a (String b "")) s2); [by constructor|done| |simpl; lia].
    cbn [trimLeft]. by rewrite Ha, Hab. }
  destruct s2 as [|c s3].
  { apply Hstop; [cbn [trimLeft]; by rewrite Ha, Hab|].
    intros H%startsWithSpace_inv. destruct H as [?|[?|[]]]; congruence. }
  destruct (space3 a b c) eqn:Habc.
  { apply (Hstrip (String a (String b (String c ""))) s3);
      [by constructor|done| |simpl; lia].
    cbn [trimLeft]. by rewrite Ha, Hab, Habc. }
  apply Hstop; [cbn [trimLeft]; by rewrite Ha, Hab, Habc|].
  intros H%startsWithSpace_inv. destruct H as [?|[?|?]]; congruence.
Qed.

Lemma string_rev_eq_app (r x y : string) :
  String.rev r = x +:+ y → r = String.rev y +:+ String.rev x.
Proof. intros E. by rewrite <- (string_rev_involutive r), E, string_rev_app. Qed.

Lemma endsWithSpace_rev_inv r :
  endsWithSpace (String.rev r) →
  match r with
  | String a r1 =>
      asciiSpace a = true
      ∨ match r1 with
        | String b r2 =>
            space2 b a = true
            ∨ match r2 with
              | String c _ => space3 c b a = true
              | EmptyString => False
              end
        | EmptyString => False
        end
  | EmptyString => False
  end.
Proof.
  intros (rest & w & Hw & E). apply string_rev_eq_app in E as ->.
  destruct Hw; rewrite ?string_rev_cons; unfold_app; auto.
Qed.

(** The same for [trimReversed], read from the end. *)
Lemma trimReversed_spec r :
  ∃ pre, r = pre +:+ trimReversed r ∧ spaceRun (String.rev pre)
         ∧ ¬ endsWithSpace (String.rev (trimReversed r)).
Proof.
  remember (String.length r) as n eqn:Hn.
  revert r Hn. induction (lt_wf n) as [n _ IH]. intros r ->.
  assert (∀ w r', spaceRune (String.rev w) → r = w +:+ r' →
            trimReversed r = trimReversed r' →
            String.length r' < String.length r →
            ∃ pre, r = pre +:+ trimReversed r ∧ spaceRun (String.rev pre)
                   ∧ ¬ endsWithSpace (String.rev (trimReversed r))) as Hstrip.
  { intros w r' Hw Es Et Hlen.
    destruct (IH (String.length r') Hlen r' eq_refl) as (pre & E & Hpre & Hno).
    exists (w +:+ pre). rewrite Et. split; [by rewrite string_app_assoc, <- E|].
    split; [|done]. rewrite string_rev_app. apply spaceRun_app; [done|].
    by apply spaceRun_rune. }
  assert (trimReversed r = r → ¬ endsWithSpace (String.rev r) →
            ∃ pre, r = pre +:+ trimReversed r ∧ spaceRun (String.rev pre)
                   ∧ ¬ endsWithSpace (String.rev (trimReversed r))) as Hstop.
  { intros -> Hno. exists "". split; [done|]. split; [constructor|done]. }
  destruct r as [|a r1].
  { apply Hstop; [done|]. by intros H%endsWithSpace_rev_inv. }
  destruct (asciiSpace a) eqn:Ha.
  { apply (Hstrip (String a "") r1); [by constructor|done| |simpl; lia].
    cbn [trimReversed]. by rewrite Ha. }
  destruct r1 as [|b r2].
  { apply Hstop; [cbn [trimReversed]; by rewrite Ha|].
    intros H%endsWithSpace_rev_inv. destruct H as [?|[]]. congruence. }
  destruct (space2 b a) eqn:Hab.
  { apply (Hstrip (String a (String b "")) r2); [by constructor|done| |simpl; lia].
    cbn [trimReversed]. by rewrite Ha, Hab. }
  destruct r2 as [|c r3].
  { apply Hstop; [cbn [trimReversed]; by rewrite Ha, Hab|].
    intros H%endsWithSpace_rev_inv. destruct H as [?|[?|[]]]; congruence. }
  destruct (space3 c b a) eqn:Habc.
  { apply (Hstrip (String a (String b (String c ""))) r3);
      [by constructor|done| |simpl; lia].
    cbn [trimReversed]. by rewrite Ha, Hab, Habc. }
  apply Hstop; [cbn [trimReversed]; by rewrite Ha, Hab, Habc|].
  intros H%endsWithSpace_rev_inv. destruct H as [?|[?|?]]; congruence.
Qed.

Lemma TrimSpace_spec s :
  ∃ pre post, s = pre +:+ TrimSpace s +:+ post
    ∧ spaceRun pre ∧ spaceRun post
    ∧ ¬ startsWithSpace (TrimSpace s) ∧ ¬ endsWithSpace (TrimSpace s).
Proof.
  unfold TrimSpace.
  destruct (trimLeft_spec s) as (pre & Es & Hpre & Hstart).
  destruct (trimReversed_spec (String.rev (trimLeft s))) as (post & Er & Hpost & Hend).
  apply string_rev_eq_app in Er.
  exists pre, (String.rev post). split; [by rewrite <- Er|].
  split; [done|]. split; [done|]. split; [|done].
  intros (w & rest & Hw & E). apply Hstart.
  exists w, (rest +:+ String.rev post). split; [done|].
  by rewrite Er, E, string_app_assoc.
Qed.

(** C9. The bulk lookup splits its input at the commas: the pieces hold no
    comma and, joined by commas, give the input back.  It trims each piece:
    what [TrimSpace] returns is the piece without a run of white-space
    runes at its start and one at its end, and itself neither starts nor
    ends with a white-space rune.  It drops the pieces that are empty after
    trimming and partitions the ids that remain, in input order: [found]
    holds one stored account per id that some stored account carries,
    [missing] the other ids.  Over the analysis store loaded from two rows
    with subject ids "111" and "222", the input "111,333, 222" gives the two
    accounts as found and ["333"] as missing, and so does the same input
    with tabs, line breaks and Unicode white space around the ids and
    blank pieces between them; trimming removes each of the white-space
    runes on both sides and leaves a zero-width space alone. *)
Theorem C9_bulk_lookup_partition :
  (∀ input,
     Join (Split input ",") "," = input
     ∧ Forall (λ piece, noComma piece = true) (Split input ","))
  ∧ (∀ piece, ∃ pre post,
       piece = pre +:+ TrimSpace piece +:+ post
       ∧ spaceRun pre ∧ spaceRun post
       ∧ ¬ startsWithSpace (TrimSpace piece) ∧ ¬ endsWithSpace (TrimSpace piece))
  ∧ (∀ accounts input,
     let ids := filter (λ id, id ≠ "") (TrimSpace <$> Split input ",") in
     let result := bulkSubjectIDLookup accounts input in
     UniqueId <$> result.1 = filter (stored accounts) ids
     ∧ result.2 = filter (λ id, ¬ stored accounts id) ids
     ∧ Forall (λ acc, ∃ k, accounts !! k = Some acc) result.1)
  ∧ (∀ p1 e1 st1 p2 e2 st2,
       let accounts :=
         readExistingCSVForAnalysis
           (Some [csvHeader; [p1; e1; "111"; st1]; [p2; e2; "222"; st2]]) in
       let result :=
         ([mkServiceAccount p1 e1 "111" st1; mkServiceAccount p2 e2 "222" st2],
          ["333"]) in
       bulkSubjectIDLookup accounts "111,333, 222" = result
       ∧ bulkSubjectIDLookup accounts Examples.paddedInput = result)
  ∧ TrimSpace (Examples.whiteSpace +:+ "a b" +:+ Examples.whiteSpace) = "a b"
  ∧ TrimSpace (Examples.zeroWidth +:+ "x" +:+ Examples.zeroWidth)
    = Examples.zeroWidth +:+ "x" +:+ Examples.zeroWidth.
Proof.
  split; [|split; [|split; [|split; [|split]]]].
  - intros input. split; [apply Split_Join|apply Split_pieces].
  - apply TrimSpace_spec.
  - intros accounts input ids result. subst result ids.
    change (filter _ (TrimSpace <$> Split input ",")) with (requestedIDs input).
    unfold bulkSubjectIDLookup.
    rewrite bulk_loop. simpl. split; [apply found_ids|]. split; [done|].
    apply Forall_forall. intros acc Hin.
    apply list_elem_of_omap in Hin as (id & _ & Hlk).
    by apply lookupSubject_Some in Hlk as [_ ?].
  - intros. split; by vm_compute.
  - by vm_compute.
  - by vm_compute.
Qed.

(** ** Entries are filed under their own key *)

Lemma writes_elem res k v :
  (k, v) ∈ writes res →
  succeeded res ∧ ∃ a, a ∈ ServiceAccounts res ∧ k = keyIn res a
    ∧ v = mkServiceAccount (ProjectId (ResProject res)) (Email a) (UniqueId a) "active".
Proof.
  unfold writes, succeeded. destruct (Error res); [by intros ?%elem_of_nil|].
  intros (a & Heq & Ha)%list_elem_of_fmap. split; [done|].
  exists a. by inversion Heq.
Qed.

Lemma elem_writes res a :
  succeeded res → a ∈ ServiceAccounts res →
  (keyIn res a,
   mkServiceAccount (ProjectId (ResProject res)) (Email a) (UniqueId a) "active")
    ∈ writes res.
Proof.
  unfold writes, succeeded. intros -> Ha.
  apply list_elem_of_fmap. by exists a.
Qed.

Lemma bind_writes_elem arrived k v :
  (k, v) ∈ arrived ≫= writes ↔ ∃ res, res ∈ arrived ∧ (k, v) ∈ writes res.
Proof.
  rewrite list_elem_of_bind.
  split; intros (res & H1 & H2); by exists res.
Qed.

Lemma wellKeyed_load file : wellKeyed (readExistingCSV file).
Proof.
  destruct file as [records|]; simpl; [|by intros k acc ?%lookup_empty_Some].
  assert (∀ rows m, wellKeyed m → wellKeyed (foldl loadRow m rows)) as H.
  { induction rows as [|r rows IH]; intros m Hm; simpl; [done|].
    apply IH. unfold loadRow. case_decide; [|done].
    intros k acc. destruct (decide (rowKey r = k)) as [<-|Hne].
    - unfold rowKey at 1. rewrite lookup_insert_eq. by intros [= <-].
    - unfold rowKey in Hne. rewrite lookup_insert_ne by done. apply Hm. }
  apply H. by intros k acc ?%lookup_empty_Some.
Qed.

Lemma wellKeyed_writes arrived (m : Store) :
  wellKeyed m → wellKeyed (foldl assign m (arrived ≫= writes)).
Proof.
  intros Hm k acc. rewrite lookup_foldl_assign.
  destruct (lastWrite k _) as [v|] eqn:E; [|apply Hm].
  intros [= <-]. apply lastWrite_Some_elem, bind_writes_elem in E as (res & _ & Hin).
  by apply writes_elem in Hin as (_ & a & _ & -> & ->).
Qed.

Lemma wellKeyed_loadMode file arrived : wellKeyed (loadMode file arrived).1.
Proof. rewrite loadMode_store. apply wellKeyed_writes, wellKeyed_load. Qed.

(** ** Project identifiers without "|" cannot collide *)

Lemma noBar_prefix p q r r' :
  noBar p = true → noBar q = true →
  p +:+ String "|" r = q +:+ String "|" r' → p = q.
Proof.
  revert q. induction p as [|c p IH]; intros [|d q]; simpl; try done.
  - intros _ Hq [= <- _]. by rewrite Ascii.eqb_refl in Hq.
  - intros Hp _ [= -> _]. by rewrite Ascii.eqb_refl in Hp.
  - intros [_ Hp]%andb_prop [_ Hq]%andb_prop [= -> E]. f_equal. by apply IH.
Qed.

Lemma storeKey_project p q e u e' u' :
  noBar p = true → noBar q = true →
  storeKey p e u = storeKey q e' u' → p = q.
Proof. unfold storeKey. apply noBar_prefix. Qed.

(** ** The write-back and the next load *)

Lemma loadRow_account m acc :
  loadRow m (rowOfAccount acc) = <[keyOf acc := acc]> m.
Proof.
  unfold loadRow. rewrite decide_True by (simpl; lia). by destruct acc.
Qed.

Lemma lastWrite_range (m : Store) entries k :
  entries ≡ₚ map_to_list m → lastWrite k entries = m !! k.
Proof.
  intros Hperm.
  assert (∀ v, (k, v) ∈ entries ↔ m !! k = Some v) as Hin.
  { intros v. by rewrite Hperm, elem_of_map_to_list. }
  apply option_eq. intros v. split.
  - intros H. by apply Hin, lastWrite_Some_elem.
  - intros H. destruct (lastWrite_is_Some k entries v) as [v' Hv']; [by apply Hin|].
    pose proof (lastWrite_Some_elem _ _ _ Hv') as Hm. apply Hin in Hm. congruence.
Qed.

Lemma writeCSV_sameWidth entries : sameWidth (writeCSV entries).
Proof.
  unfold writeCSV. simpl. apply Forall_forall. intros row Hin.
  by apply list_elem_of_fmap in Hin as (kv & -> & _).
Qed.

Lemma readExistingCSV_writeCSV (m : Store) entries :
  wellKeyed m → entries ≡ₚ map_to_list m →
  readExistingCSV (Some (writeCSV entries)) = m.
Proof.
  intros Hm Hperm. unfold readExistingCSV.
  rewrite ReadAll_sameWidth by apply writeCSV_sameWidth.
  unfold writeCSV. rewrite skipn_cons, drop_0.
  assert (∀ es m0, (∀ k acc, (k, acc) ∈ es → k = keyOf acc) →
            foldl loadRow m0 (map (λ kv, rowOfAccount kv.2) es) = foldl assign m0 es) as H.
  { induction es as [|[k acc] es IH]; intros m0 Hes; simpl; [done|].
    rewrite loadRow_account, IH.
    - unfold assign at 2; simpl. by rewrite <- (Hes k acc) by left.
    - intros k' acc' Hin. apply Hes. by right. }
  rewrite H.
  - apply map_eq. intros k. rewrite lookup_foldl_assign, (lastWrite_range m) by done.
    destruct (m !! k); [done|]. apply lookup_empty.
  - intros k acc Hin. apply Hm. apply elem_of_map_to_list. by rewrite <- Hperm.
Qed.

(** A field without a carriage return before a line feed is read back as
    it was written. *)
Lemma readBack_plain s : hasCRLF s = false → readBack s = s.
Proof.
  induction s as [|a rest IH]; [done|].
  destruct rest as [|b rest']; [done|].
  cbn [hasCRLF readBack] in *. intros [H1 H2]%orb_false_elim.
  rewrite H1. f_equal. by apply IH.
Qed.

Lemma readBack_account acc :
  plainAccount acc = true → readBack <$> rowOfAccount acc = rowOfAccount acc.
Proof.
  unfold plainAccount, rowOfAccount. simpl.
  rewrite !andb_true_iff, !negb_true_iff. intros (H1 & H2 & H3 & H4 & _).
  by rewrite !readBack_plain.
Qed.

Lemma csvFile_plain entries :
  Forall (λ kv : string * ServiceAccount, plainAccount kv.2 = true) entries →
  csvFile (writeCSV entries) = Some (writeCSV entries).
Proof.
  intros H. unfold csvFile, writeCSV. f_equal.
  rewrite fmap_cons. f_equal.
  induction H as [|kv es Hkv Hes IH]; [done|].
  rewrite map_cons, fmap_cons, readBack_account by done. f_equal. exact IH.
Qed.

Lemma plainStore_entries (m : Store) entries :
  plainStore m → entries ≡ₚ map_to_list m →
  Forall (λ kv : string * ServiceAccount, plainAccount kv.2 = true) entries.
Proof.
  intros Hm Hperm. apply Forall_forall. intros [k acc] Hin.
  rewrite Hperm in Hin. apply elem_of_map_to_list in Hin. by apply (Hm k acc).
Qed.

(** The next load reads the store that was written, when its entries are
    filed under their own keys and hold no line break that the reader
    rewrites. *)
Lemma csv_round_trip (m : Store) entries :
  wellKeyed m → plainStore m → entries ≡ₚ map_to_list m →
  readExistingCSV (csvFile (writeCSV entries)) = m.
Proof.
  intros Hm Hplain Hperm.
  rewrite csvFile_plain by (by eapply plainStore_entries).
  by apply readExistingCSV_writeCSV.
Qed.

(** ** Failed projects *)

Lemma reconcile_failed st res :
  ¬ succeeded res →
  reconcile st res
  = mkRecon (existingAccounts st)
            (accessStatuses st ++ [mkProjectAccess (ProjectId (ResProject res)) "no"])
            (processed st).
Proof. unfold succeeded, reconcile. by destruct (Error res). Qed.

(** With identifiers free of "|", an account of another project never has
    the key of an entry of project [p]. *)
Lemma other_project_key res a acc :
  noBar (ProjectID acc) = true → noBar (ProjectId (ResProject res)) = true →
  ProjectId (ResProject res) ≠ ProjectID acc →
  keyIn res a ≠ keyOf acc.
Proof.
  intros Hp Hq Hne Hkey. apply Hne.
  by eapply storeKey_project.
Qed.

(** C3. For a project whose query failed, a stored entry of that project
    is the same entry after the run, deletion-marking included, provided no
    account returned by the successful query of another project has the
    entry's store key; and reconciling a failed outcome only appends the
    (projectId, "no") record. *)
Theorem C3_failed_project_entries_kept file arrived p k acc :
  readExistingCSV file !! k = Some acc →
  ProjectID acc = p →
  (∀ res, res ∈ arrived → ProjectId (ResProject res) = p → ¬ succeeded res) →
  (∀ res a, res ∈ arrived → succeeded res → a ∈ ServiceAccounts res →
            ProjectId (ResProject res) ≠ p → keyIn res a ≠ k) →
  (loadMode file arrived).1 !! k = Some acc
  ∧ (∀ st res, res ∈ arrived → ProjectId (ResProject res) = p →
       reconcile st res
       = mkRecon (existingAccounts st)
                 (accessStatuses st ++ [mkProjectAccess p "no"])
                 (processed st)).
Proof.
  intros Hk Hp Hfail Hfree. split.
  - rewrite loadMode_store, lookup_foldl_assign.
    assert (lastWrite k (arrived ≫= writes) = None) as ->; [|done].
    apply lastWrite_None. intros v Hin.
    apply bind_writes_elem in Hin as (res & Hres & Hin).
    apply writes_elem in Hin as (Hok & a & Ha & Hkey & _).
    destruct (decide (ProjectId (ResProject res) = p)) as [Heq|Hne].
    + by apply (Hfail res).
    + by apply (Hfree res a).
  - intros st res Hres Hpid. rewrite reconcile_failed by by apply Hfail.
    by rewrite Hpid.
Qed.

Lemma C3_failed_project_entries_kept_witness :
  (loadMode (Some [csvHeader; ["p2"; "e2"; "s2"; "active"]])
            (query Examples.directory
               <$> [Examples.project "p1"; Examples.project "p2"])).1
    !! "p2|e2|s2"
  = Some (mkServiceAccount "p2" "e2" "s2" "active").
Proof.
  apply (C3_failed_project_entries_kept _ _ "p2"); [done|done| |].
  - intros res Hin Hpid Hok.
    repeat (apply elem_of_cons in Hin as [->|Hin]); try done.
    by apply elem_of_nil in Hin.
  - intros res a Hin Hok Ha _.
    repeat (apply elem_of_cons in Hin as [->|Hin]); [| |by apply elem_of_nil in Hin].
    + repeat (apply elem_of_cons in Ha as [->|Ha]); [done|by apply elem_of_nil in Ha].
    + by apply elem_of_nil in Ha.
Defined.

(** C3, as stated, fails: project "a|b" fails, project "a" succeeds and
    returns the account ("b|c", "d"), whose key "a|b|c|d" is the key of the
    stored entry ("a|b", "c", "d"); the entry of the failed project is
    replaced. *)
Lemma C3_counterexample :
  let file := Some [csvHeader; ["a|b"; "c"; "d"; "deleted"]] in
  let arrived := query Examples.onlyA
                   <$> [Examples.project "a|b"; Examples.project "a"] in
  readExistingCSV file !! "a|b|c|d"
    = Some (mkServiceAccount "a|b" "c" "d" "deleted")
  ∧ Forall (λ res, ProjectId (ResProject res) = "a|b" → ¬ succeeded res) arrived
  ∧ (loadMode file arrived).1 !! "a|b|c|d"
    = Some (mkServiceAccount "a" "b|c" "d" "active")
  ∧ (loadMode file arrived).1 !! "a|b|c|d"
    ≠ Some (mkServiceAccount "a|b" "c" "d" "deleted").
Proof.
  split; [done|]. split; [|split; [done|by vm_compute]].
  repeat constructor; [by intros _|by intros ?].
Qed.

(** ** Resurrection *)

(** C4. A stored entry with status "deleted" whose identity (p, e, u) is
    returned by a successful query for p is "active" after the run, and the
    store then holds exactly one entry with that identity, provided every
    account returned this run under the same store key has that same
    identity. *)
Theorem C4_resurrection file arrived res a k acc :
  readExistingCSV file !! k = Some acc →
  Status acc = "deleted" →
  res ∈ arrived → succeeded res → a ∈ ServiceAccounts res →
  identity acc = (ProjectId (ResProject res), Email a, UniqueId a) →
  (∀ res' a', res' ∈ arrived → succeeded res' → a' ∈ ServiceAccounts res' →
     keyIn res' a' = k →
     (ProjectId (ResProject res'), Email a', UniqueId a') = identity acc) →
  filter (λ kv, identity kv.2 = identity acc) (loadMode file arrived).1
  = {[ k := markAs "active" acc ]}.
Proof.
  intros Hk Hdel Hres Hok Ha Hid Hsame.
  pose proof (wellKeyed_load file k acc Hk) as Hkey.
  assert (k = keyIn res a) as Hka.
  { rewrite Hkey. unfold keyOf, keyIn. by inversion Hid. }
  assert ((loadMode file arrived).1 !! k = Some (markAs "active" acc)) as Hfinal.
  { rewrite loadMode_store, lookup_foldl_assign.
    destruct (lastWrite_is_Some k (arrived ≫= writes)
                (mkServiceAccount (ProjectId (ResProject res)) (Email a) (UniqueId a)
                   "active")) as [v Hv].
    { apply bind_writes_elem. exists res. split; [done|].
      rewrite Hka. by apply elem_writes. }
    rewrite Hv. f_equal.
    apply lastWrite_Some_elem, bind_writes_elem in Hv as (res' & Hres' & Hin).
    apply writes_elem in Hin as (Hok' & a' & Ha' & Hkey' & ->).
    specialize (Hsame res' a' Hres' Hok' Ha' (eq_sym Hkey')).
    unfold markAs. by inversion Hsame. }
  apply map_eq. intros k'. apply option_eq. intros v.
  rewrite map_lookup_filter_Some, lookup_singleton_Some. split.
  - intros [Hv Hidv]. cbn beta iota delta [snd] in Hidv.
    assert (k' = k) as ->.
    { rewrite (wellKeyed_loadMode file arrived k' v Hv), Hkey.
      unfold keyOf. by inversion Hidv. }
    split; [done|]. congruence.
  - intros [<- <-]. split; [done|]. cbn beta iota delta [snd]. by destruct acc.
Qed.

Lemma C4_resurrection_witness :
  filter (λ kv, identity kv.2 = ("p1", "e1", "s1"))
    (loadMode (Some [csvHeader; ["p1"; "e1"; "s1"; "deleted"]])
              (query Examples.directory
                 <$> [Examples.project "p1"; Examples.project "p2"])).1
  = {[ "p1|e1|s1" := mkServiceAccount "p1" "e1" "s1" "active" ]}.
Proof.
  apply (C4_resurrection (Some [csvHeader; ["p1"; "e1"; "s1"; "deleted"]])
           (query Examples.directory <$> [Examples.project "p1"; Examples.project "p2"])
           (query Examples.directory (Examples.project "p1"))
           (Examples.account "e1" "s1")
           "p1|e1|s1" (mkServiceAccount "p1" "e1" "s1" "deleted"));
    try done.
  - left.
  - left.
  - intros res' a' Hin Hok Ha' _.
    repeat (apply elem_of_cons in Hin as [->|Hin]); [| |by apply elem_of_nil in Hin].
    + repeat (apply elem_of_cons in Ha' as [->|Ha']); [done|by apply elem_of_nil in Ha'].
    + by apply elem_of_nil in Ha'.
Defined.

(** C4, as stated, fails: the stored entry ("p", "x|y", "z", deleted) is
    returned again by the successful query for "p", followed by the account
    ("x", "y|z") of the same store key; after the run the store holds no
    entry with identity ("p", "x|y", "z"). *)
Lemma C4_counterexample :
  let file := Some [csvHeader; ["p"; "x|y"; "z"; "deleted"]] in
  let arrived := query Examples.twoAccounts <$> [Examples.project "p"] in
  readExistingCSV file !! storeKey "p" "x|y" "z"
    = Some (mkServiceAccount "p" "x|y" "z" "deleted")
  ∧ Exists (λ res, succeeded res ∧ ProjectId (ResProject res) = "p"
                   ∧ Examples.account "x|y" "z" ∈ ServiceAccounts res) arrived
  ∧ map_to_list (loadMode file arrived).1
    = [("p|x|y|z", mkServiceAccount "p" "x" "y|z" "active")]
  ∧ filter (λ kv, identity kv.2 = ("p", "x|y", "z")) (loadMode file arrived).1 = ∅.
Proof.
  split; [done|]. split; [|split].
  - left. split; [done|]. split; [done|]. left.
  - by vm_compute.
  - apply map_eq. intros k. rewrite lookup_empty.
    apply map_lookup_filter_None. right. intros v Hv.
    apply elem_of_map_to_list in Hv.
    replace (map_to_list (loadMode _ _).1)
      with [("p|x|y|z", mkServiceAccount "p" "x" "y|z" "active")] in Hv
      by (by vm_compute).
    apply list_elem_of_singleton in Hv. by inversion Hv.
Qed.

(** ** Two runs in succession *)

Lemma lastWrite_bind_Some k arrived v :
  lastWrite k (arrived ≫= writes) = Some v →
  ∃ res, res ∈ arrived ∧ lastWrite k (writes res) = Some v.
Proof.
  induction arrived as [|res arrived IH]; [done|].
  change ((res :: arrived) ≫= writes) with (writes res ++ (arrived ≫= writes)).
  rewrite lastWrite_app.
  destruct (lastWrite k (arrived ≫= writes)) as [w|] eqn:E.
  - intros [= <-]. destruct IH as (res' & Hin & Hw); [done|].
    exists res'. split; [by right|done].
  - intros Hw. exists res. split; [left|done].
Qed.

Lemma lastWrite_bind_agree k arrived res v :
  (∀ r1 r2 v1 v2, r1 ∈ arrived → r2 ∈ arrived →
     lastWrite k (writes r1) = Some v1 → lastWrite k (writes r2) = Some v2 → v1 = v2) →
  res ∈ arrived → lastWrite k (writes res) = Some v →
  lastWrite k (arrived ≫= writes) = Some v.
Proof.
  intros Hagree Hres Hv.
  destruct (lastWrite_is_Some k (arrived ≫= writes) v) as [v' Hv'].
  { apply bind_writes_elem. exists res. split; [done|]. by apply lastWrite_Some_elem. }
  rewrite Hv'. f_equal.
  apply lastWrite_bind_Some in Hv' as (res' & Hres' & Hw).
  by apply (Hagree res' res).
Qed.

Lemma writes_query client p q :
  ProjectId p = ProjectId q → writes (query client p) = writes (query client q).
Proof. unfold writes, query; simpl. by intros ->. Qed.

Section TwoRuns.
Variable client : string → list ServiceAccount * option string.
Variable projects : list Project.
Variables arr1 arr2 : list projectResult.
Hypothesis order1 : arr1 ≡ₚ query client <$> projects.
Hypothesis order2 : arr2 ≡ₚ query client <$> projects.
(** Accounts of different projects never share a store key. *)
Hypothesis apart : ∀ r1 r2 a1 a2,
  r1 ∈ arr1 → r2 ∈ arr1 → succeeded r1 → succeeded r2 →
  a1 ∈ ServiceAccounts r1 → a2 ∈ ServiceAccounts r2 →
  keyIn r1 a1 = keyIn r2 a2 →
  ProjectId (ResProject r1) = ProjectId (ResProject r2).

Lemma same_project_writes r1 r2 :
  r1 ∈ arr1 → r2 ∈ arr1 →
  ProjectId (ResProject r1) = ProjectId (ResProject r2) → writes r1 = writes r2.
Proof.
  rewrite !order1. intros (p & -> & _)%list_elem_of_fmap (q & -> & _)%list_elem_of_fmap.
  apply writes_query.
Qed.

Lemma writes_agree k r1 r2 v1 v2 :
  r1 ∈ arr1 → r2 ∈ arr1 →
  lastWrite k (writes r1) = Some v1 → lastWrite k (writes r2) = Some v2 → v1 = v2.
Proof.
  intros H1 H2 Hv1 Hv2.
  pose proof (lastWrite_Some_elem _ _ _ Hv1) as E1.
  pose proof (lastWrite_Some_elem _ _ _ Hv2) as E2.
  apply writes_elem in E1 as (Hok1 & a1 & Ha1 & Hk1 & _).
  apply writes_elem in E2 as (Hok2 & a2 & Ha2 & Hk2 & _).
  assert (writes r1 = writes r2) as Hw.
  { apply same_project_writes; [done|done|].
    apply (apart r1 r2 a1 a2); try done. congruence. }
  rewrite Hw in Hv1. congruence.
Qed.

Lemma lastWrite_orders k :
  lastWrite k (arr2 ≫= writes) = lastWrite k (arr1 ≫= writes).
Proof.
  assert (arr2 ≡ₚ arr1) as Hperm by (by rewrite order1, order2).
  apply option_eq. intros v. split; intros Hv;
    apply lastWrite_bind_Some in Hv as (res & Hres & Hw).
  - apply (lastWrite_bind_agree k arr1 res); [|by rewrite <- Hperm|done].
    intros r1 r2 v1 v2. apply writes_agree.
  - apply (lastWrite_bind_agree k arr2 res); [|by rewrite Hperm|done].
    intros r1 r2 v1 v2 H1 H2. apply writes_agree; by rewrite <- Hperm.
Qed.

End TwoRuns.





(** ** Schedules of the fan-out *)

Lemma arrivals_snoc sched a :
  arrivals (sched ++ [a])
  = arrivals sched ++ match a with Handoff i => [i] | _ => [] end.
Proof. unfold arrivals. rewrite omap_app. simpl. by destruct a. Qed.

Lemma reconciled_snoc sched a :
  reconciled (sched ++ [a])
  = reconciled sched ++ match a with Reconcile i => [i] | _ => [] end.
Proof. unfold reconciled. rewrite omap_app. simpl. by destruct a. Qed.

Lemma holders_insert ws i w w' :
  ws !! i = Some w →
  holders (<[i := w']> ws) + (if holdsPermit w then 1 else 0)
  = holders ws + (if holdsPermit w' then 1 else 0).
Proof.
  unfold holders. revert i. induction ws as [|x ws IH]; intros [|i] H; simpl in *;
    try done.
  - injection H as ->. rewrite !filter_cons.
    destruct (holdsPermit w), (holdsPermit w'); simpl;
      repeat case_decide; simpl; try done; lia.
  - specialize (IH i H). rewrite !filter_cons.
    case_decide; simpl; lia.
Qed.

Lemma delivered_insert_same (ws : list wphase) (i : nat) w w' (arr : list nat) :
  ws !! i = Some w → delivered w' = delivered w →
  (∀ j, j ∈ arr ↔ ∃ x, ws !! j = Some x ∧ delivered x = true) →
  ∀ j, j ∈ arr ↔ ∃ x, <[i := w']> ws !! j = Some x ∧ delivered x = true.
Proof.
  intros Hi Hd H j. rewrite H.
  destruct (decide (i = j)) as [<-|Hne].
  - rewrite list_lookup_insert_eq by (by eapply lookup_lt_Some). split.
    + intros (x & Hx & Hdx). exists w'. split; [done|]. congruence.
    + intros (x & [= <-] & Hdx). exists w. split; [done|]. congruence.
  - by rewrite list_lookup_insert_ne.
Qed.

Lemma delivered_insert_new (ws : list wphase) (i : nat) w w' (arr : list nat) :
  ws !! i = Some w → delivered w' = true →
  (∀ j, j ∈ arr ↔ ∃ x, ws !! j = Some x ∧ delivered x = true) →
  ∀ j, j ∈ arr ++ [i] ↔ ∃ x, <[i := w']> ws !! j = Some x ∧ delivered x = true.
Proof.
  intros Hi Hd H j. rewrite elem_of_app, list_elem_of_singleton, H.
  destruct (decide (i = j)) as [<-|Hne].
  - rewrite list_lookup_insert_eq by (by eapply lookup_lt_Some). split.
    + intros _. by exists w'.
    + intros _. by right.
  - rewrite list_lookup_insert_ne by done. split; [|by left].
    intros [H'| ->]; done.
Qed.

Lemma all_exited (ws : list wphase) :
  forallb isExited ws = true → ∀ i w, ws !! i = Some w → w = WExited.
Proof.
  induction ws as [|x ws IH]; simpl; [by intros|].
  intros [Hx Hws]%andb_prop [|i] w Hw; simpl in Hw.
  - injection Hw as <-. by destruct x.
  - by eapply IH.
Qed.

Lemma exec_snoc client projects c s sched a :
  exec client projects c s (sched ++ [a])
  = exec client projects c s sched ≫= λ s', step client projects c s' a.
Proof.
  revert s. induction sched as [|b sched IH]; intros s; simpl.
  - by destruct (step _ _ _ s a).
  - destruct (step _ _ _ s b); [apply IH|done].
Qed.

Lemma exec_app client projects c s sched1 sched2 :
  exec client projects c s (sched1 ++ sched2)
  = exec client projects c s sched1 ≫= λ s', exec client projects c s' sched2.
Proof.
  revert s. induction sched1 as [|b sched IH]; intros s; simpl; [done|].
  destruct (step _ _ _ s b); [apply IH|done].
Qed.

Lemma signalled_snoc sched a :
  signalled (sched ++ [a])
  = signalled sched ++ match a with Signal i => [i] | _ => [] end.
Proof. unfold signalled. rewrite omap_app. simpl. by destruct a. Qed.

Lemma workerSteps_insert (ws : list wphase) i w w' :
  ws !! i = Some w →
  sum_list (workerSteps <$> <[i := w']> ws) + workerSteps w
  = sum_list (workerSteps <$> ws) + workerSteps w'.
Proof.
  revert i. induction ws as [|x ws IH]; intros [|i] H; simpl in *; try done.
  - injection H as ->. clear IH. lia.
  - specialize (IH i H). unfold fmap in IH. lia.
Qed.

Section FanOut.
Variable client : string → list ServiceAccount * option string.
Variable projects : list Project.
Variable c : nat.
Variable r0 : Recon.

Lemma Inv_start existing statuses :
  r0 = mkRecon existing statuses ∅ →
  Inv client projects c r0 [] (start projects existing statuses).
Proof.
  intros ->. constructor; unfold start;
    cbn [workers permits closed consumer buffered rendered recon]; try done.
  - by rewrite length_fmap.
  - constructor.
  - intros i. split; [by intros ?%elem_of_nil|].
    intros (w & Hw & Hd). apply list_lookup_fmap_Some in Hw as (p & -> & _). done.
  - intros i w Hw. by apply list_lookup_fmap_Some in Hw as (p & -> & _).
  - intros i res Hw. apply list_lookup_fmap_Some in Hw as (p & ? & _). done.
  - split; [|lia]. unfold holders. induction projects as [|p ps IH]; [done|].
    rewrite fmap_cons, filter_cons. by case_decide.
Qed.

Lemma Inv_worker sched s a i w w' n :
  Inv client projects c r0 sched s →
  workers s !! i = Some w → w ≠ WExited →
  delivered w' = delivered w →
  (w = WBlocked → a = Acquire i) →
  (∀ res, w' = WSending res → query client <$> projects !! i = Some res) →
  n + (if holdsPermit w then 1 else 0) = permits s + (if holdsPermit w' then 1 else 0) →
  n ≤ c →
  arrivals (sched ++ [a]) = arrivals sched →
  reconciled (sched ++ [a]) = reconciled sched →
  signalled (sched ++ [a]) = signalled sched →
  Inv client projects c r0 (sched ++ [a]) (setPermits (setWorker s i w') n).
Proof.
  intros [Hlen Hnd Hdel Hacq Hsend Hcons Hbuf Hrec Hcl Hret [Hperm Hle]]
    Hw Hlive Hd Ha Hres Hn Hnc Harr Hrecd Hsig.
  constructor; rewrite ?Harr, ?Hrecd, ?Hsig; simpl; try done.
  - by rewrite length_insert.
  - by eapply delivered_insert_same.
  - intros j x. destruct (decide (i = j)) as [<-|Hne].
    + rewrite list_lookup_insert_eq by (by eapply lookup_lt_Some).
      intros _ _. apply elem_of_app. destruct (decide (w = WBlocked)) as [Hb|Hb].
      * right. rewrite (Ha Hb). left.
      * left. by eapply Hacq.
    + rewrite list_lookup_insert_ne by done. intros Hx Hnb.
      apply elem_of_app. left. by eapply Hacq.
  - intros j res. destruct (decide (i = j)) as [<-|Hne].
    + rewrite list_lookup_insert_eq by (by eapply lookup_lt_Some).
      intros [= ->]. by apply Hres.
    + rewrite list_lookup_insert_ne by done. apply Hsend.
  - intros Hclosed. exfalso. apply Hlive. by eapply Hcl.
  - split; [|done]. pose proof (holders_insert _ _ _ w' Hw). lia.
Qed.

Lemma Inv_other sched s a cph b r k :
  Inv client projects c r0 sched s →
  match cph with
  | CRange | CReturned =>
      arrivals (sched ++ [a]) = reconciled (sched ++ [a])
      ∧ signalled (sched ++ [a]) = reconciled (sched ++ [a])
  | CLocked i res =>
      arrivals (sched ++ [a]) = reconciled (sched ++ [a]) ++ [i]
      ∧ signalled (sched ++ [a]) = reconciled (sched ++ [a])
      ∧ query client <$> projects !! i = Some res
  | CSignalled i res =>
      arrivals (sched ++ [a]) = reconciled (sched ++ [a]) ++ [i]
      ∧ signalled (sched ++ [a]) = reconciled (sched ++ [a]) ++ [i]
      ∧ query client <$> projects !! i = Some res
  end →
  b + rendered s + k = length (signalled (sched ++ [a])) →
  r = reconcileAll r0 (resultsAt client projects (reconciled (sched ++ [a]))) →
  (cph = CReturned → closed s = true) →
  arrivals (sched ++ [a]) = arrivals sched →
  Inv client projects c r0 (sched ++ [a])
    (mkPipeline (workers s) (permits s) (closed s) cph b (k + rendered s) r).
Proof.
  intros [Hlen Hnd Hdel Hacq Hsend Hcons Hbuf Hrec Hcl Hret [Hperm Hle]]
    Hcph Hb Hr Hreturned Harr.
  constructor; simpl; try done.
  - by rewrite Harr.
  - intros i. by rewrite Harr.
  - intros i w Hw Hnb. apply elem_of_app. left. by eapply Hacq.
  - lia.
Qed.

Lemma Inv_step sched s a s' :
  Inv client projects c r0 sched s →
  step client projects c s a = Some s' →
  Inv client projects c r0 (sched ++ [a]) s'.
Proof.
  intros HI Hstep. destruct a as [i|i|i|i|i|i|i| | |]; simpl in Hstep.
  - (* Acquire *)
    destruct (workers s !! i) as [[]|] eqn:Hw; try done.
    case_decide as Hlt; [|done]. injection Hstep as <-.
    eapply Inv_worker; eauto; simpl; try done; try lia;
      by rewrite ?arrivals_snoc, ?reconciled_snoc, ?signalled_snoc, app_nil_r.
  - (* Query *)
    destruct (workers s !! i) as [[]|] eqn:Hw; try done.
    destruct (projects !! i) as [p|] eqn:Hp; [|done]. injection Hstep as <-.
    change (setWorker s i (WSending (query client p)))
      with (setPermits (setWorker s i (WSending (query client p))) (permits s)).
    eapply Inv_worker; eauto; simpl; try done.
    + intros res [= <-]. by rewrite Hp.
    + apply HI.
    + by rewrite arrivals_snoc, app_nil_r.
    + by rewrite reconciled_snoc, app_nil_r.
    + by rewrite signalled_snoc, app_nil_r.
  - (* Handoff *)
    destruct (workers s !! i) as [[| |res| | |]|] eqn:Hw; try done.
    destruct (consumer s) eqn:Hc; try done.
    destruct (closed s) eqn:Hcl; [done|]. injection Hstep as <-.
    destruct HI as [Hlen Hnd Hdel Hacq Hsend Hcons Hbuf Hrec Hclosed Hret [Hperm Hle]].
    rewrite Hc in Hcons. destruct Hcons as [Harr Hsig].
    constructor;
      rewrite ?arrivals_snoc, ?reconciled_snoc, ?signalled_snoc, ?app_nil_r;
      simpl; try done.
    + by rewrite length_insert.
    + apply NoDup_app. split; [done|]. split; [|apply NoDup_singleton].
      intros j Hj ->%list_elem_of_singleton.
      apply Hdel in Hj as (w & Hw' & Hd). by simplify_eq.
    + by eapply delivered_insert_new.
    + intros j x. destruct (decide (i = j)) as [<-|Hne].
      * intros _ _. apply elem_of_app. left. by eapply Hacq.
      * rewrite list_lookup_insert_ne by done. intros Hx Hnb.
        apply elem_of_app. left. by eapply Hacq.
    + intros j r. destruct (decide (i = j)) as [<-|Hne].
      * by rewrite list_lookup_insert_eq by (by eapply lookup_lt_Some).
      * rewrite list_lookup_insert_ne by done. apply Hsend.
    + split; [by rewrite Harr|]. split; [done|]. by apply Hsend.
    + by rewrite Hcl.
    + split; [|done]. pose proof (holders_insert _ _ _ WSent Hw). simpl in *. lia.
  - (* Signal *)
    destruct (consumer s) as [|j res|j res|] eqn:Hc; try done.
    case_decide as Hg; [|done]. destruct Hg as [-> Hroom]. injection Hstep as <-.
    pose proof (inv_consumer _ _ _ _ _ _ HI) as Hcons. rewrite Hc in Hcons.
    destruct Hcons as (Harr & Hsig & Hres).
    pose proof (inv_buffer _ _ _ _ _ _ HI) as Hbuf.
    change (rendered s) with (0 + rendered s) at 1.
    apply Inv_other; try done.
    + rewrite arrivals_snoc, reconciled_snoc, signalled_snoc, !app_nil_r.
      by rewrite Hsig.
    + rewrite signalled_snoc, length_app. simpl. lia.
    + rewrite reconciled_snoc, app_nil_r. apply HI.
    + by rewrite arrivals_snoc, app_nil_r.
  - (* Reconcile *)
    destruct (consumer s) as [|j res|j res|] eqn:Hc; try done.
    case_decide as Hg; [|done]. subst j. injection Hstep as <-.
    pose proof (inv_consumer _ _ _ _ _ _ HI) as Hcons. rewrite Hc in Hcons.
    destruct Hcons as (Harr & Hsig & Hres).
    pose proof (inv_buffer _ _ _ _ _ _ HI) as Hbuf.
    change (rendered s) with (0 + rendered s) at 1.
    apply Inv_other; try done.
    + by rewrite arrivals_snoc, reconciled_snoc, signalled_snoc, !app_nil_r.
    + rewrite signalled_snoc, app_nil_r. lia.
    + rewrite reconciled_snoc. unfold resultsAt. rewrite omap_app. simpl.
      rewrite Hres. simpl. rewrite reconcileAll_snoc.
      by rewrite (inv_recon _ _ _ _ _ _ HI).
    + by rewrite arrivals_snoc, app_nil_r.
  - (* Release *)
    destruct (workers s !! i) as [[]|] eqn:Hw; try done. injection Hstep as <-.
    destruct (inv_permits _ _ _ _ _ _ HI) as [Hperm Hle].
    pose proof (holders_insert _ _ _ WReleased Hw) as Hh. simpl in Hh.
    eapply Inv_worker; eauto; simpl; try done; try lia;
      by rewrite ?arrivals_snoc, ?reconciled_snoc, ?signalled_snoc, app_nil_r.
  - (* Exit *)
    destruct (workers s !! i) as [[]|] eqn:Hw; try done. injection Hstep as <-.
    change (setWorker s i WExited)
      with (setPermits (setWorker s i WExited) (permits s)).
    eapply Inv_worker; eauto; simpl; try done.
    + apply HI.
    + by rewrite arrivals_snoc, app_nil_r.
    + by rewrite reconciled_snoc, app_nil_r.
    + by rewrite signalled_snoc, app_nil_r.
  - (* Close *)
    destruct (forallb isExited (workers s)) eqn:Hall; [|done].
    destruct (closed s) eqn:Hcl; [done|]. injection Hstep as <-.
    destruct HI as [Hlen Hnd Hdel Hacq Hsend Hcons Hbuf Hrec Hclosed Hret [Hperm Hle]].
    constructor;
      rewrite ?arrivals_snoc, ?reconciled_snoc, ?signalled_snoc, ?app_nil_r;
      simpl; try done.
    + intros j w Hw Hnb. apply elem_of_app. left. by eapply Hacq.
    + intros _. by apply all_exited.
  - (* Finish *)
    destruct (consumer s) eqn:Hc; try done.
    destruct (closed s) eqn:Hcl; [|done]. injection Hstep as <-.
    pose proof (inv_consumer _ _ _ _ _ _ HI) as Hcons. rewrite Hc in Hcons.
    pose proof (inv_buffer _ _ _ _ _ _ HI) as Hbuf.
    unfold setConsumer. change (rendered s) with (0 + rendered s).
    apply Inv_other; try done.
    + by rewrite arrivals_snoc, reconciled_snoc, signalled_snoc, !app_nil_r.
    + rewrite signalled_snoc, app_nil_r. lia.
    + rewrite reconciled_snoc, app_nil_r. apply HI.
    + by rewrite arrivals_snoc, app_nil_r.
  - (* Render *)
    destruct (buffered s) as [|b] eqn:Hb; [done|]. injection Hstep as <-.
    pose proof (inv_consumer _ _ _ _ _ _ HI) as Hcons.
    pose proof (inv_buffer _ _ _ _ _ _ HI) as Hbuf.
    change (S (rendered s)) with (1 + rendered s).
    apply Inv_other; try done.
    + rewrite arrivals_snoc, reconciled_snoc, signalled_snoc, !app_nil_r.
      by destruct (consumer s).
    + rewrite signalled_snoc, app_nil_r. lia.
    + rewrite reconciled_snoc, app_nil_r. apply HI.
    + apply HI.
    + by rewrite arrivals_snoc, app_nil_r.
Qed.

Lemma Inv_exec existing statuses sched s :
  r0 = mkRecon existing statuses ∅ →
  exec client projects c (start projects existing statuses) sched = Some s →
  Inv client projects c r0 sched s.
Proof.
  intros Hr0. revert s. induction sched as [|a sched IH] using rev_ind; intros s.
  - intros [= <-]. by apply Inv_start.
  - rewrite exec_snoc. intros Hs.
    apply bind_Some in Hs as (s1 & Hs1 & Hstep).
    eapply Inv_step; [|done]. by apply IH.
Qed.
End FanOut.

(** ** Complete runs *)

Lemma omap_lookup_seq {A B} (f : A → B) (l pre : list A) :
  omap (λ i, f <$> (pre ++ l) !! i) (seq (length pre) (length l)) = f <$> l.
Proof.
  revert pre. induction l as [|x l IH]; intros pre; simpl; [done|].
  rewrite list_lookup_middle by done. simpl. f_equal.
  specialize (IH (pre ++ [x])). rewrite length_app, <- app_assoc in IH. simpl in IH.
  by rewrite Nat.add_1_r in IH.
Qed.

Lemma resultsAt_all client projects :
  resultsAt client projects (seq 0 (length projects)) = query client <$> projects.
Proof. apply (omap_lookup_seq (query client) projects []). Qed.

Lemma elem_arrivals sched i : i ∈ arrivals sched ↔ Handoff i ∈ sched.
Proof.
  unfold arrivals. rewrite list_elem_of_omap. split.
  - intros (a & Ha & Hi). destruct a; try done. by injection Hi as ->.
  - intros H. by exists (Handoff i).
Qed.

Lemma elem_signalled sched i : i ∈ signalled sched ↔ Signal i ∈ sched.
Proof.
  unfold signalled. rewrite list_elem_of_omap. split.
  - intros (a & Ha & Hi). destruct a; try done. by injection Hi as ->.
  - intros H. by exists (Signal i).
Qed.

Lemma elem_reconciled sched i : i ∈ reconciled sched ↔ Reconcile i ∈ sched.
Proof.
  unfold reconciled. rewrite list_elem_of_omap. split.
  - intros (a & Ha & Hi). destruct a; try done. by injection Hi as ->.
  - intros H. by exists (Reconcile i).
Qed.

Lemma occursBefore_take sched a k :
  occursBefore sched a k ↔ a ∈ take k sched.
Proof.
  unfold occursBefore. rewrite list_elem_of_lookup. split.
  - intros (j & Hj & Ha). exists j. by apply lookup_take_Some.
  - intros (j & Hj). apply lookup_take_Some in Hj as [Ha Hj]. by exists j.
Qed.

Section Progress.
Variable client : string → list ServiceAccount * option string.
Variable projects : list Project.
Variable c : nat.

Lemma step_stepsLeft s a s' :
  step client projects c s a = Some s' → stepsLeft s' < stepsLeft s.
Proof.
  intros Hstep. unfold stepsLeft.
  destruct a as [i|i|i|i|i|i|i| | |]; simpl in Hstep.
  - destruct (workers s !! i) as [[]|] eqn:Hw; try done.
    case_decide; [|done]. injection Hstep as <-. simpl.
    pose proof (workerSteps_insert _ _ _ WHolding Hw). simpl in *. lia.
  - destruct (workers s !! i) as [[]|] eqn:Hw; try done.
    destruct (projects !! i) as [p|]; [|done]. injection Hstep as <-. simpl.
    pose proof (workerSteps_insert _ _ _ (WSending (query client p)) Hw).
    simpl in *. lia.
  - destruct (workers s !! i) as [[| |res| | |]|] eqn:Hw; try done.
    destruct (consumer s) eqn:Hc; try done.
    destruct (closed s) eqn:Hcl; [done|]. injection Hstep as <-. simpl.
    rewrite Hcl. pose proof (workerSteps_insert _ _ _ WSent Hw). simpl in *. lia.
  - destruct (consumer s) as [|j res|j res|] eqn:Hc; try done.
    case_decide; [|done]. injection Hstep as <-. simpl. lia.
  - destruct (consumer s) as [|j res|j res|] eqn:Hc; try done.
    case_decide; [|done]. injection Hstep as <-. simpl. lia.
  - destruct (workers s !! i) as [[]|] eqn:Hw; try done. injection Hstep as <-.
    simpl. pose proof (workerSteps_insert _ _ _ WReleased Hw). simpl in *. lia.
  - destruct (workers s !! i) as [[]|] eqn:Hw; try done. injection Hstep as <-.
    simpl. pose proof (workerSteps_insert _ _ _ WExited Hw). simpl in *. lia.
  - destruct (forallb isExited (workers s)); [|done].
    destruct (closed s) eqn:Hcl; [done|]. injection Hstep as <-. simpl. lia.
  - destruct (consumer s) eqn:Hc; try done.
    destruct (closed s) eqn:Hcl; [|done]. injection Hstep as <-. simpl.
    rewrite Hcl. lia.
  - destruct (buffered s) eqn:Hb; [done|]. injection Hstep as <-. simpl. lia.
Qed.

Lemma exec_stepsLeft sched s s' :
  exec client projects c s sched = Some s' →
  length sched + stepsLeft s' ≤ stepsLeft s.
Proof.
  revert s. induction sched as [|a sched IH]; intros s; simpl.
  - intros [= <-]. lia.
  - destruct (step client projects c s a) as [s1|] eqn:Hstep; [|done].
    intros Hs'. apply IH in Hs'. apply step_stepsLeft in Hstep. lia.
Qed.

Lemma stepsLeft_start existing statuses :
  stepsLeft (start projects existing statuses) = 8 * length projects + 2.
Proof.
  unfold stepsLeft, start. simpl.
  assert (sum_list (workerSteps <$> ((λ _, WBlocked) <$> projects))
          = 8 * length projects) as ->; [|lia].
  induction projects as [|p ps IH]; [done|].
  rewrite !fmap_cons. simpl in *. unfold fmap in *. lia.
Qed.

(** A worker that is not exited, if the workers are not all exited. *)
Lemma not_all_exited (ws : list wphase) :
  forallb isExited ws = false → ∃ i w, ws !! i = Some w ∧ w ≠ WExited.
Proof.
  induction ws as [|x ws IH]; simpl; [done|].
  destruct (isExited x) eqn:Hx; simpl.
  - intros (i & w & Hw & Hne)%IH. by exists (S i), w.
  - intros _. exists 0, x. split; [done|]. by intros ->.
Qed.

Lemma holders_idle (ws : list wphase) :
  Forall (λ w, busy w = false) ws → holders ws = 0.
Proof.
  unfold holders. induction 1 as [|w ws Hw _ IH]; [done|].
  rewrite filter_cons. case_decide as Hh; [|done].
  by destruct w.
Qed.

(** While the function has not returned, some goroutine can take a step. *)
Lemma step_enabled r0 sched s :
  0 < c → Inv client projects c r0 sched s → ¬ returned s →
  ∃ a s', step client projects c s a = Some s'.
Proof.
  intros Hc HI Hrun. unfold returned in Hrun.
  pose proof (inv_consumer _ _ _ _ _ _ HI) as Hcons.
  destruct (consumer s) as [|i res|i res|] eqn:Hcs; [| | |done].
  - destruct (closed s) eqn:Hcl.
    { exists Finish. eexists. simpl. by rewrite Hcs, Hcl. }
    destruct (forallb isExited (workers s)) eqn:Hall.
    { exists Close. eexists. simpl. by rewrite Hall, Hcl. }
    destruct (decide (Exists (λ w, busy w = true) (workers s))) as [Hbusy|Hidle].
    + apply Exists_exists in Hbusy as (w & Hin & Hb).
      apply list_elem_of_lookup in Hin as [i Hw].
      destruct w as [| |res| | |]; try done.
      * assert (is_Some (projects !! i)) as [p Hp].
        { apply lookup_lt_is_Some. rewrite <- (inv_length _ _ _ _ _ _ HI).
          by eapply lookup_lt_Some. }
        exists (Query i). eexists. simpl. by rewrite Hw, Hp.
      * exists (Handoff i). eexists. simpl. by rewrite Hw, Hcs, Hcl.
      * exists (Release i). eexists. simpl. by rewrite Hw.
      * exists (Exit i). eexists. simpl. by rewrite Hw.
    + apply not_all_exited in Hall as (i & w & Hw & Hne).
      assert (Forall (λ w, busy w = false) (workers s)) as Hfree.
      { apply Forall_forall. intros x Hx. destruct (busy x) eqn:Hbx; [|done].
        exfalso. apply Hidle, Exists_exists. by exists x. }
      assert (w = WBlocked) as ->.
      { rewrite Forall_forall in Hfree.
        specialize (Hfree w (list_elem_of_lookup_2 _ _ _ Hw)). by destruct w. }
      destruct (inv_permits _ _ _ _ _ _ HI) as [Hperm _].
      rewrite holders_idle in Hperm by done.
      exists (Acquire i). eexists. simpl. rewrite Hw.
      rewrite decide_True by lia. done.
  - destruct Hcons as (Harr & Hsig & _).
    exists (Signal i). eexists. simpl. rewrite Hcs.
    rewrite decide_True; [done|]. split; [done|].
    pose proof (inv_buffer _ _ _ _ _ _ HI) as Hbuf.
    assert (length (arrivals sched) ≤ length projects) as Hlen.
    { rewrite <- (length_seq (length projects) 0).
      apply submseteq_length, NoDup_submseteq; [apply HI|].
      intros j (w & Hw & _)%(inv_delivered _ _ _ _ _ _ HI).
      apply elem_of_seq. apply lookup_lt_Some in Hw.
      rewrite (inv_length _ _ _ _ _ _ HI) in Hw. lia. }
    rewrite Harr, length_app in Hlen. simpl in Hlen. rewrite Hsig in Hbuf. lia.
  - exists (Reconcile i). eexists. simpl. rewrite Hcs.
    by rewrite decide_True.
Qed.

(** Every run that has not returned can be continued until it has. *)
Lemma run_completes r0 sched s :
  0 < c → Inv client projects c r0 sched s →
  ∃ rest s', exec client projects c s rest = Some s' ∧ returned s'.
Proof.
  intros Hc. remember (stepsLeft s) as n eqn:Hn.
  revert sched s Hn. induction n as [n IH] using lt_wf_ind. intros sched s -> HI.
  destruct (consumer s) eqn:Hcs.
  4: { exists [], s. by split. }
  all: destruct (step_enabled r0 sched s Hc HI) as (a & s1 & Hstep);
    [by unfold returned; rewrite Hcs|];
    destruct (IH (stepsLeft s1) (step_stepsLeft _ _ _ Hstep) (sched ++ [a]) s1 eq_refl)
      as (rest & s' & Hrest & Hret); [by eapply Inv_step|];
    exists (a :: rest), s'; simpl; rewrite Hstep; by split.
Qed.
End Progress.

Section Runs.
Variable client : string → list ServiceAccount * option string.
Variable projects : list Project.
Variable c : nat.
Variable existing : Store.
Variable statuses : list ProjectAccess.

Let r0 := mkRecon existing statuses ∅.
Let init := start projects existing statuses.

(** The state just before the action at position [k], and the step taken. *)
Lemma exec_at sched s k a :
  exec client projects c init sched = Some s →
  sched !! k = Some a →
  ∃ s1 s2, exec client projects c init (take k sched) = Some s1
           ∧ Inv client projects c r0 (take k sched) s1
           ∧ step client projects c s1 a = Some s2.
Proof.
  intros Hs Hk. rewrite <- (take_drop_middle _ _ _ Hk), exec_app in Hs.
  apply bind_Some in Hs as (s1 & Hs1 & Hrest). simpl in Hrest.
  destruct (step client projects c s1 a) as [s2|] eqn:Hstep; [|done].
  exists s1, s2. split; [done|]. split; [|done].
  by eapply Inv_exec.
Qed.

Lemma arrivals_all sched s :
  exec client projects c init sched = Some s → returned s →
  arrivals sched ≡ₚ seq 0 (length projects).
Proof.
  intros Hs Hret. pose proof (Inv_exec client projects c r0 existing statuses sched s eq_refl Hs) as HI.
  apply NoDup_Permutation; [apply HI|apply NoDup_seq|].
  intros i. rewrite elem_of_seq, (inv_delivered _ _ _ _ _ _ HI). split.
  - intros (w & Hw & _). apply lookup_lt_Some in Hw.
    rewrite (inv_length _ _ _ _ _ _ HI) in Hw. lia.
  - intros [_ Hi]. rewrite <- (inv_length _ _ _ _ _ _ HI) in Hi.
    apply lookup_lt_is_Some in Hi as [w Hw]. exists w. split; [done|].
    rewrite (inv_closed _ _ _ _ _ _ HI (inv_returned _ _ _ _ _ _ HI Hret) i w Hw). done.
Qed.

(** A returned run is the result loop run over its outcome stream, and
    the stream holds the outcome of every project once. *)
Lemma run_outcomes sched s :
  exec client projects c init sched = Some s → returned s →
  recon s = reconcileAll r0 (outcomes client projects sched)
  ∧ outcomes client projects sched ≡ₚ query client <$> projects.
Proof.
  intros Hs Hret. pose proof (Inv_exec client projects c r0 existing statuses sched s eq_refl Hs) as HI.
  pose proof (inv_consumer _ _ _ _ _ _ HI) as Hc. rewrite Hret in Hc.
  destruct Hc as [Harr _]. split.
  - rewrite (inv_recon _ _ _ _ _ _ HI), <- Harr. done.
  - rewrite <- resultsAt_all. unfold outcomes, resultsAt.
    by rewrite (arrivals_all sched s).
Qed.
End Runs.

(** Load mode of [main] on a returned run of the fan-out is [loadMode] on
    the run's outcome stream. *)
Lemma loadMode_of_run client projects c file sched s :
  exec client projects c (start projects (readExistingCSV file) []) sched = Some s →
  returned s →
  (markDeleted (processed (recon s)) (map_to_list (existingAccounts (recon s)))
     (existingAccounts (recon s)),
   accessStatuses (recon s))
  = loadMode file (outcomes client projects sched)
  ∧ outcomes client projects sched ≡ₚ query client <$> projects.
Proof.
  intros Hs Hret.
  destruct (run_outcomes client projects c _ [] sched s Hs Hret) as [-> Hperm].
  done.
Qed.

Ltac not_before :=
  let j := fresh "j" in let Hj := fresh "Hj" in let Ha := fresh "Ha" in
  intros (j & Hj & Ha);
  repeat (destruct j as [|j]; [by simplify_eq/=|]); lia.

(** X18. Without a permit to give ([-c 0]) and with at least one project,
    no worker ever starts and the function does not return, whatever the
    schedule. *)
Lemma no_permit_no_return client projects existing statuses sched s :
  projects ≠ [] →
  exec client projects 0 (start projects existing statuses) sched = Some s →
  ¬ returned s.
Proof.
  intros Hne Hs Hret.
  pose proof (Inv_exec client projects 0 _ existing statuses sched s eq_refl Hs) as HI.
  assert (is_Some (workers s !! 0)) as [w Hw].
  { apply lookup_lt_is_Some. rewrite (inv_length _ _ _ _ _ _ HI).
    destruct projects; [done|simpl; lia]. }
  pose proof (inv_closed _ _ _ _ _ _ HI (inv_returned _ _ _ _ _ _ HI Hret) 0 w Hw) as ->.
  pose proof (inv_acquired _ _ _ _ _ _ HI 0 WExited Hw) as Hacq.
  apply list_elem_of_lookup in Hacq as [k Hk]; [|done].
  destruct (exec_at _ _ _ _ _ _ _ _ _ Hs Hk) as (s1 & s2 & _ & _ & Hstep).
  simpl in Hstep. destruct (workers s1 !! 0) as [[]|]; try done.
Qed.

(** C2. Every run of the fan-out, however the goroutines are scheduled,
    takes at most 8 n + 2 steps for n projects and, with a positive
    concurrency bound, can be continued until the function returns; once
    it has returned, the Access Status list holds exactly one record per
    dispatched project, (id, "yes") if its query succeeded and (id, "no")
    if it failed: it is a permutation of the records of the project list. *)
Theorem C2_one_access_record_per_project client projects c existing sched s :
  exec client projects c (start projects existing []) sched = Some s →
  (0 < c → ∃ rest s', exec client projects c s rest = Some s' ∧ returned s')
  ∧ length sched ≤ 8 * length projects + 2
  ∧ (returned s →
     accessStatuses (recon s) ≡ₚ accessOf <$> (query client <$> projects)).
Proof.
  intros Hs.
  pose proof (Inv_exec client projects c _ existing [] sched s eq_refl Hs) as HI.
  split; [intros Hc; by eapply run_completes|]. split.
  - apply exec_stepsLeft in Hs. rewrite stepsLeft_start in Hs. lia.
  - intros Hret. destruct (run_outcomes client projects c existing [] sched s Hs Hret)
      as [-> Hperm].
    rewrite reconcileAll_access. simpl. by rewrite Hperm.
Qed.

Lemma C2_one_access_record_per_project_witness :
  let projects := [Examples.project "p1"; Examples.project "p2"; Examples.project "p3"] in
  let sched := [Acquire 2; Acquire 0; Query 0; Query 2; Handoff 2; Signal 2;
                Release 2; Acquire 1; Render; Reconcile 2; Query 1; Handoff 1;
                Exit 2; Signal 1; Reconcile 1; Handoff 0; Release 1; Signal 0;
                Render; Reconcile 0; Release 0; Exit 0; Exit 1; Close; Finish;
                Render] in
  ∃ s, exec Examples.directory projects 2 (start projects ∅ []) sched = Some s
       ∧ accessStatuses (recon s)
         = [mkProjectAccess "p3" "yes"; mkProjectAccess "p2" "no";
            mkProjectAccess "p1" "yes"]
       ∧ accessStatuses (recon s)
         ≡ₚ [mkProjectAccess "p1" "yes"; mkProjectAccess "p2" "no";
             mkProjectAccess "p3" "yes"].
Proof.
  intros projects sched. eexists. split; [by vm_compute|]. split; [done|].
  refine (proj2 (proj2 (C2_one_access_record_per_project
                          Examples.directory projects 2 ∅ sched _ _)) _);
    [by vm_compute|done].
Defined.

Section Order.
Variable client : string → list ServiceAccount * option string.
Variable projects : list Project.
Variable c : nat.
Variable existing : Store.
Variable statuses : list ProjectAccess.
Variable sched : list action.
Variable s : Pipeline.
Hypothesis run : exec client projects c (start projects existing statuses) sched = Some s.

Lemma signal_after_handoff k i :
  sched !! k = Some (Signal i) →
  occursBefore sched (Handoff i) k ∧ ¬ occursBefore sched (Reconcile i) k.
Proof.
  intros Hk. destruct (exec_at _ _ _ _ _ _ _ _ _ run Hk) as (s1 & s2 & _ & HI & Hstep).
  simpl in Hstep. pose proof (inv_consumer _ _ _ _ _ _ HI) as Hcons.
  destruct (consumer s1) as [|j res|j res|]; try done.
  case_decide as Hg; [|done]. destruct Hg as [-> _].
  destruct Hcons as (Harr & _ & _). rewrite !occursBefore_take. split.
  - apply elem_arrivals. rewrite Harr. apply elem_of_app. right. left.
  - intros Hin%elem_reconciled.
    pose proof (inv_nodup _ _ _ _ _ _ HI) as Hnd. rewrite Harr in Hnd.
    apply NoDup_app in Hnd as (_ & Hnd & _). apply (Hnd j Hin). left.
Qed.

Lemma reconcile_after_signal k i :
  sched !! k = Some (Reconcile i) → occursBefore sched (Signal i) k.
Proof.
  intros Hk. destruct (exec_at _ _ _ _ _ _ _ _ _ run Hk) as (s1 & s2 & _ & HI & Hstep).
  simpl in Hstep. pose proof (inv_consumer _ _ _ _ _ _ HI) as Hcons.
  destruct (consumer s1) as [|j res|j res|]; try done.
  case_decide as Hg; [|done]. subst j.
  destruct Hcons as (_ & Hsig & _). rewrite occursBefore_take.
  apply elem_signalled. rewrite Hsig. apply elem_of_app. right. left.
Qed.

Lemma release_after_handoff k i :
  sched !! k = Some (Release i) → occursBefore sched (Handoff i) k.
Proof.
  intros Hk. destruct (exec_at _ _ _ _ _ _ _ _ _ run Hk) as (s1 & s2 & _ & HI & Hstep).
  simpl in Hstep. destruct (workers s1 !! i) as [[]|] eqn:Hw; try done.
  rewrite occursBefore_take. apply elem_arrivals.
  apply (inv_delivered _ _ _ _ _ _ HI). by exists WSent.
Qed.

Lemma handoff_holding k i :
  sched !! k = Some (Handoff i) →
  occursBefore sched (Acquire i) k ∧ ¬ occursBefore sched (Release i) k.
Proof.
  intros Hk. destruct (exec_at _ _ _ _ _ _ _ _ _ run Hk) as (s1 & s2 & _ & HI & Hstep).
  simpl in Hstep. destruct (workers s1 !! i) as [[| |res| | |]|] eqn:Hw; try done.
  split.
  - rewrite occursBefore_take. by eapply (inv_acquired _ _ _ _ _ _ HI).
  - intros (j & Hj & Hrel).
    destruct (release_after_handoff j i Hrel) as (j' & Hj' & Hh).
    assert (i ∈ arrivals (take k sched)) as Hin.
    { apply elem_arrivals, occursBefore_take. exists j'. split; [lia|done]. }
    apply (inv_delivered _ _ _ _ _ _ HI) in Hin as (w & Hw' & Hd).
    by simplify_eq.
Qed.
End Order.

(** C6. In every run, the progress signal for a project is sent by the
    result loop after it has received that project's outcome and before it
    reconciles it: the signal comes after the hand-off and is never
    preceded by the reconciliation, and every reconciliation is preceded by
    its signal. *)
Theorem C6_signal_precedes_reconciliation client projects c existing statuses sched s :
  exec client projects c (start projects existing statuses) sched = Some s →
  (∀ k i, sched !! k = Some (Signal i) →
     occursBefore sched (Handoff i) k ∧ ¬ occursBefore sched (Reconcile i) k)
  ∧ (∀ k i, sched !! k = Some (Reconcile i) → occursBefore sched (Signal i) k).
Proof.
  intros Hs. split.
  - intros k i. by eapply signal_after_handoff.
  - intros k i. by eapply reconcile_after_signal.
Qed.

Lemma C6_signal_precedes_reconciliation_witness :
  let projects := [Examples.project "p1"; Examples.project "p2"] in
  let sched := [Acquire 1; Acquire 0; Query 0; Query 1; Handoff 1; Signal 1;
                Reconcile 1; Handoff 0; Signal 0; Reconcile 0] in
  occursBefore sched (Signal 0) 9 ∧ ¬ occursBefore sched (Reconcile 1) 5.
Proof.
  intros projects sched.
  assert (is_Some (exec Examples.directory projects 2 (start projects ∅ []) sched))
    as [s Hs] by (eexists; vm_compute; reflexivity).
  destruct (C6_signal_precedes_reconciliation _ _ _ _ _ _ _ Hs) as [H1 H2].
  split.
  - by apply H2.
  - by apply (H1 5 1).
Defined.

(** C6, as stated, fails: in this complete run of one project the signal
    is sent at step 3, the reconciliation happens at step 5, and in between
    the reporter has already counted the project while the store and the
    Access Status list are still untouched. *)
Lemma C6_counterexample :
  let projects := [Examples.project "p1"] in
  let sched := [Acquire 0; Query 0; Handoff 0; Signal 0; Render; Reconcile 0;
                Release 0; Exit 0; Close; Finish] in
  (∃ s, exec Examples.directory projects 1 (start projects ∅ []) sched = Some s
        ∧ returned s)
  ∧ sched !! 3 = Some (Signal 0)
  ∧ ¬ occursBefore sched (Reconcile 0) 3
  ∧ (∃ s1, exec Examples.directory projects 1 (start projects ∅ []) (take 5 sched)
             = Some s1
           ∧ rendered s1 = 1
           ∧ recon s1 = mkRecon ∅ [] ∅).
Proof.
  intros projects sched. split; [|split; [done|split]].
  - eexists. split; [by vm_compute|done].
  - not_before.
  - eexists. split; [by vm_compute|done].
Qed.

(** C7. In every run, a worker returns its permit only after its outcome
    has been received by the result loop; when the outcome is received the
    worker has taken its permit and not yet returned it; and in every state
    reached the tokens in [sem] are exactly the workers between taking
    and returning a permit (querying, waiting to hand off, or about to
    release), at most [concurrency] of them. *)
Theorem C7_permit_held_until_received client projects c existing statuses sched s :
  exec client projects c (start projects existing statuses) sched = Some s →
  (∀ k i, sched !! k = Some (Release i) → occursBefore sched (Handoff i) k)
  ∧ (∀ k i, sched !! k = Some (Handoff i) →
       occursBefore sched (Acquire i) k ∧ ¬ occursBefore sched (Release i) k)
  ∧ permits s = holders (workers s)
  ∧ holders (workers s) ≤ c.
Proof.
  intros Hs. split; [|split].
  - intros k i. by eapply release_after_handoff.
  - intros k i. by eapply handoff_holding.
  - pose proof (Inv_exec client projects c _ existing statuses sched s eq_refl Hs) as HI.
    destruct (inv_permits _ _ _ _ _ _ HI) as [Hp Hle]. split; [done|]. by rewrite <- Hp.
Qed.

Lemma C7_permit_held_until_received_witness :
  let projects := [Examples.project "p1"; Examples.project "p2"] in
  let sched := [Acquire 1; Acquire 0; Query 0; Query 1; Handoff 1; Signal 1;
                Release 1; Reconcile 1; Handoff 0; Signal 0; Reconcile 0; Release 0] in
  occursBefore sched (Handoff 1) 6 ∧ ¬ occursBefore sched (Release 0) 8.
Proof.
  intros projects sched.
  assert (is_Some (exec Examples.directory projects 2 (start projects ∅ []) sched))
    as [s Hs] by (eexists; vm_compute; reflexivity).
  destruct (C7_permit_held_until_received _ _ _ _ _ _ _ Hs) as (H1 & H2 & _).
  split.
  - by apply H1.
  - by apply (H2 8 0).
Defined.

(** C7, as stated, fails: with [sem] of capacity 1, the first worker's
    outcome is received at step 2 while no release has happened; just
    before, the worker is waiting to hand off with the only permit, and the
    second worker cannot start. *)
Lemma C7_counterexample :
  let projects := [Examples.project "p1"; Examples.project "p2"] in
  let sched := [Acquire 0; Query 0; Handoff 0; Signal 0; Reconcile 0; Release 0; Exit 0;
                Acquire 1; Query 1; Handoff 1; Signal 1; Reconcile 1; Release 1; Exit 1;
                Close; Finish] in
  (∃ s, exec Examples.directory projects 1 (start projects ∅ []) sched = Some s
        ∧ returned s)
  ∧ sched !! 2 = Some (Handoff 0)
  ∧ ¬ occursBefore sched (Release 0) 2
  ∧ (∃ s1, exec Examples.directory projects 1 (start projects ∅ []) (take 2 sched)
             = Some s1
           ∧ workers s1 !! 0
             = Some (WSending (query Examples.directory (Examples.project "p1")))
           ∧ permits s1 = 1
           ∧ step Examples.directory projects 1 s1 (Acquire 1) = None).
Proof.
  intros projects sched. split; [|split; [done|split]].
  - eexists. split; [by vm_compute|done].
  - not_before.
  - eexists. split; [by vm_compute|]. split; [done|]. split; [done|]. by vm_compute.
Qed.

(** ** More on the loaders *)

Section LoaderLast.
Variable load : Store → Row → Store.
Variable key : Row → string.
Hypothesis load_eq : ∀ m row,
  load m row = if decide (4 ≤ length row)
               then <[key row := accountOfRow row]> m else m.

Lemma load_rows_lookup rows (m : Store) k :
  foldl load m rows !! k
  = match lastRowFor key k rows with
    | Some r => Some (accountOfRow r)
    | None => m !! k
    end.
Proof.
  unfold lastRowFor. revert m. induction rows as [|r rows IH]; intros m; [done|].
  cbn [foldl]. rewrite IH, filter_cons, load_eq.
  destruct (decide (4 ≤ length r)) as [Hlen|Hlen].
  - destruct (decide (key r = k)) as [Hk|Hk].
    + rewrite decide_True by done. rewrite last_cons.
      destruct (last _); [done|]. subst k. by rewrite lookup_insert_eq.
    + rewrite decide_False by (by intros [_ ?]).
      destruct (last _); [done|]. by rewrite lookup_insert_ne.
  - rewrite decide_False by (by intros [? _]). done.
Qed.
End LoaderLast.

Lemma load_store_lookup (records : list Row) (k : string) :
  readExistingCSV (Some records) !! k
  = accountOfRow <$> lastRowFor rowKey k (drop 1 (ReadAll records)).
Proof.
  unfold readExistingCSV.
  rewrite (load_rows_lookup loadRow rowKey loadRow_eq), lookup_empty.
  by destruct (lastRowFor _ _ _).
Qed.

Lemma analysis_store_lookup (records : list Row) (k : string) :
  readExistingCSVForAnalysis (Some records) !! k
    = accountOfRow <$> lastRowFor (λ r, field r 2) k (drop 1 (ReadAll records))
  ∧ (∀ acc, readExistingCSVForAnalysis (Some records) !! k = Some acc →
            UniqueId acc = k).
Proof.
  assert (readExistingCSVForAnalysis (Some records) !! k
          = accountOfRow <$> lastRowFor (λ r, field r 2) k (drop 1 (ReadAll records)))
    as Heq.
  { unfold readExistingCSVForAnalysis.
    rewrite (load_rows_lookup loadRowForAnalysis (λ r, field r 2) loadRowForAnalysis_eq),
      lookup_empty.
    by destruct (lastRowFor _ _ _). }
  split; [done|]. intros acc. rewrite Heq. unfold lastRowFor.
  intros (r & Hr & ->)%fmap_Some.
  apply last_Some_elem_of, list_elem_of_filter in Hr as [[_ Hk] _]. done.
Qed.

(** X1. What load mode reads for a key: when every row of the file has as
    many columns as the header, the account of the last data row (the
    header apart) that has at least four columns and that key, so that
    later rows replace earlier ones and a key no such row has is absent;
    when some row has another number of columns, nothing. *)
Theorem readExistingCSV_last_row_wins (records : list Row) (k : string) :
  readExistingCSV (Some records) !! k
  = if decide (sameWidth records)
    then accountOfRow <$> lastRowFor rowKey k (drop 1 records)
    else None.
Proof.
  rewrite load_store_lookup. unfold ReadAll. by case_decide.
Qed.

(** X2. What analysis mode reads for a subject id: when every row of the
    file has as many columns as the header, the account of the last data
    row with at least four columns and that subject id in column three;
    when some row has another number of columns, nothing.  Every entry is
    filed under its own subject id, so rows of different projects with the
    same subject id replace one another. *)
Theorem readExistingCSVForAnalysis_by_subject (records : list Row) (k : string) :
  readExistingCSVForAnalysis (Some records) !! k
    = (if decide (sameWidth records)
       then accountOfRow <$> lastRowFor (λ r, field r 2) k (drop 1 records)
       else None)
  ∧ (∀ acc, readExistingCSVForAnalysis (Some records) !! k = Some acc →
            UniqueId acc = k).
Proof.
  destruct (analysis_store_lookup records k) as [Heq Hkey]. split; [|done].
  rewrite Heq. unfold ReadAll. by case_decide.
Qed.

Lemma readExistingCSVForAnalysis_by_subject_witness :
  UniqueId (mkServiceAccount "q" "f" "1" "active") = "1".
Proof.
  apply (proj2 (readExistingCSVForAnalysis_by_subject
                  [csvHeader; ["p"; "e"; "1"; "active"]; ["q"; "f"; "1"; "active"]]
                  "1")).
  by vm_compute.
Defined.

Lemma field_take (row : Row) i : i < 4 → field (take 4 row) i = field row i.
Proof. intros Hi. unfold field, Row in *. by rewrite lookup_take_lt. Qed.

Lemma loadRow_take m row : loadRow m (take 4 row) = loadRow m row.
Proof.
  unfold loadRow, accountOfRow. rewrite length_take, !field_take by lia.
  destruct (decide (4 ≤ length row)).
  - rewrite decide_True by lia. done.
  - rewrite decide_False by lia. done.
Qed.

Lemma loadRowForAnalysis_take m row :
  loadRowForAnalysis m (take 4 row) = loadRowForAnalysis m row.
Proof.
  unfold loadRowForAnalysis, accountOfRow. rewrite length_take, !field_take by lia.
  destruct (decide (length row < 4)).
  - rewrite decide_True by lia. done.
  - rewrite decide_False by lia. done.
Qed.

Lemma foldl_fmap_ext {A B C} (f : A → B → A) (g : C → B) (h : A → C → A) l a :
  (∀ a c, f a (g c) = h a c) → foldl f a (g <$> l) = foldl h a l.
Proof.
  intros H. revert a. induction l as [|c l IH]; intros a; [done|].
  rewrite fmap_cons. simpl. by rewrite H, IH.
Qed.

Lemma sameWidth_take (records : list Row) :
  sameWidth records → sameWidth (take 4 <$> records).
Proof.
  destruct records as [|first rest]; [done|]. rewrite fmap_cons. simpl.
  intros H. apply Forall_fmap. eapply Forall_impl; [exact H|].
  intros row Hrow. simpl. unfold Row in *. rewrite !length_take. lia.
Qed.

(** X3. On a file whose rows all have as many columns as the header, both
    loaders read the first four columns only: cutting every row down to
    four columns loads the same store. *)
Theorem loaders_ignore_extra_columns (records : list Row) :
  sameWidth records →
  readExistingCSV (Some (take 4 <$> records)) = readExistingCSV (Some records)
  ∧ readExistingCSVForAnalysis (Some (take 4 <$> records))
    = readExistingCSVForAnalysis (Some records).
Proof.
  intros Hsame. unfold readExistingCSV, readExistingCSVForAnalysis.
  rewrite !ReadAll_sameWidth by (done || by apply sameWidth_take).
  rewrite <- !fmap_drop. split.
  - apply foldl_fmap_ext, loadRow_take.
  - apply foldl_fmap_ext, loadRowForAnalysis_take.
Qed.

Lemma loaders_ignore_extra_columns_witness :
  readExistingCSV
    (Some [["ProjectID"; "Email"; "SubjectID"; "Status"];
           ["p"; "e"; "1"; "active"]])
  = readExistingCSV
      (Some [["ProjectID"; "Email"; "SubjectID"; "Status"; "Note"];
             ["p"; "e"; "1"; "active"; "seen"]]).
Proof.
  apply (loaders_ignore_extra_columns
           [["ProjectID"; "Email"; "SubjectID"; "Status"; "Note"];
            ["p"; "e"; "1"; "active"; "seen"]]).
  simpl. by repeat constructor.
Defined.

(** ** Writing the file and reading it back *)

(** X4. A store whose entries are filed under the keys of their own
    fields, and hold no carriage return right before a line feed, is read
    back unchanged from the file [writeCSV] wrote, in whatever order the
    rows were written; every row written has four columns, and there is
    one row per entry after the header. *)
Theorem writeCSV_read_back (m : Store) (entries : list (string * ServiceAccount)) :
  wellKeyed m → plainStore m → entries ≡ₚ map_to_list m →
  readExistingCSV (csvFile (writeCSV entries)) = m
  ∧ Forall (λ row, length row = 4) (writeCSV entries)
  ∧ length (writeCSV entries) = S (size m).
Proof.
  intros Hm Hplain Hperm. split; [by apply csv_round_trip|]. split.
  - unfold writeCSV. constructor; [done|].
    apply Forall_forall. intros row Hrow.
    apply list_elem_of_fmap in Hrow as (kv & -> & _). done.
  - unfold writeCSV. simpl. rewrite length_map, Hperm, length_map_to_list. done.
Qed.

Lemma writeCSV_read_back_witness :
  let m : Store := <["p|e|1" := mkServiceAccount "p" "e" "1" "active"]>
                     (<["q|f|2" := mkServiceAccount "q" "f" "2" "deleted"]> ∅) in
  readExistingCSV (csvFile (writeCSV (map_to_list m))) = m.
Proof.
  intros m. apply (writeCSV_read_back m (map_to_list m)); [| |done].
  - intros k acc Hk.
    apply lookup_insert_Some in Hk as [[<- <-]|[_ Hk]]; [done|].
    apply lookup_insert_Some in Hk as [[<- <-]|[_ Hk]]; [done|].
    by apply lookup_empty_Some in Hk.
  - apply (bool_decide_unpack _). by vm_compute.
Defined.

(** X5. Analysis mode on the file load mode wrote for a store without a
    carriage return right before a line feed in its fields: every account
    it holds is an entry of the written store, and when the subject ids of
    the store are pairwise distinct every entry is found under its subject
    id. *)
Theorem writeCSV_read_for_analysis (m : Store) (entries : list (string * ServiceAccount)) :
  plainStore m →
  entries ≡ₚ map_to_list m →
  (∀ u acc, readExistingCSVForAnalysis (csvFile (writeCSV entries)) !! u = Some acc →
            ∃ k, m !! k = Some acc)
  ∧ (subjectsDistinct m →
     ∀ k acc, m !! k = Some acc →
              readExistingCSVForAnalysis (csvFile (writeCSV entries)) !! UniqueId acc
              = Some acc).
Proof.
  intros Hplain Hperm.
  rewrite csvFile_plain by (by eapply plainStore_entries).
  assert (∀ u r, lastRowFor (λ r, field r 2) u (drop 1 (writeCSV entries)) = Some r →
            ∃ k acc, m !! k = Some acc ∧ r = rowOfAccount acc ∧ UniqueId acc = u) as Hlast.
  { intros u r Hr. unfold lastRowFor, writeCSV in Hr. rewrite skipn_cons, drop_0 in Hr.
    apply last_Some_elem_of, list_elem_of_filter in Hr as [[_ Hu] Hin].
    apply list_elem_of_fmap in Hin as ([k acc] & -> & Hin).
    rewrite Hperm in Hin. apply elem_of_map_to_list in Hin.
    exists k, acc. split; [done|]. split; [done|]. exact Hu. }
  assert (∀ u, readExistingCSVForAnalysis (Some (writeCSV entries)) !! u
               = accountOfRow <$> lastRowFor (λ r, field r 2) u (drop 1 (writeCSV entries)))
    as Hread.
  { intros u. destruct (analysis_store_lookup (writeCSV entries) u) as [-> _].
    by rewrite ReadAll_sameWidth by apply writeCSV_sameWidth. }
  split.
  - intros u acc Hu.
    rewrite Hread in Hu. apply fmap_Some in Hu as (r & Hr & ->).
    destruct (Hlast u r Hr) as (k & acc & Hk & -> & _).
    exists k. by destruct acc.
  - intros Hdistinct k acc Hk. rewrite Hread.
    destruct (lastRowFor _ _ _) as [r|] eqn:Hr.
    + destruct (Hlast _ r Hr) as (k' & acc' & Hk' & -> & Hu).
      rewrite (Hdistinct k' k acc' acc Hk' Hk Hu) in Hk'.
      assert (acc' = acc) as -> by congruence. by destruct acc.
    + exfalso. unfold lastRowFor in Hr. apply last_None in Hr.
      assert (rowOfAccount acc ∈ filter (λ r, 4 ≤ length r ∧ field r 2 = UniqueId acc)
                (drop 1 (writeCSV entries))) as Hin; [|rewrite Hr in Hin; by inversion Hin].
      apply list_elem_of_filter. split; [split; [simpl; lia|done]|].
      unfold writeCSV. rewrite skipn_cons, drop_0.
      apply list_elem_of_fmap. exists (k, acc). split; [done|].
      rewrite Hperm. by apply elem_of_map_to_list.
Qed.

Lemma writeCSV_read_for_analysis_witness :
  readExistingCSVForAnalysis
    (csvFile (writeCSV [("p|e|1", mkServiceAccount "p" "e" "1" "active")])) !! "1"
  = Some (mkServiceAccount "p" "e" "1" "active").
Proof.
  refine (proj2 (writeCSV_read_for_analysis
                   (<["p|e|1" := mkServiceAccount "p" "e" "1" "active"]> ∅)
                   [("p|e|1", mkServiceAccount "p" "e" "1" "active")] _ _) _
                "p|e|1" (mkServiceAccount "p" "e" "1" "active") _).
  - apply (bool_decide_unpack _). by vm_compute.
  - by vm_compute.
  - intros k1 k2 a1 a2 H1 H2 _.
    apply lookup_insert_Some in H1 as [[<- _]|[_ H1]];
      [|by apply lookup_empty_Some in H1].
    apply lookup_insert_Some in H2 as [[<- _]|[_ H2]];
      [done|by apply lookup_empty_Some in H2].
  - apply lookup_insert_eq.
Defined.

(** X6. Every subject id of the store load mode reads from a file is a
    subject id of the store analysis mode reads from the same file. *)
Theorem load_store_subjects_in_analysis_store (file : option (list Row)) (id : string) :
  stored (readExistingCSV file) id → stored (readExistingCSVForAnalysis file) id.
Proof.
  intros (k & acc & Hk & Hid). destruct file as [records|];
    [|simpl in Hk; by apply lookup_empty_Some in Hk].
  rewrite load_store_lookup in Hk.
  apply fmap_Some in Hk as (r & Hr & ->). unfold lastRowFor in Hr.
  apply last_Some_elem_of, list_elem_of_filter in Hr as [[Hlen _] Hin].
  destruct (analysis_store_lookup records id) as [Heq Hkey].
  destruct (lastRowFor (λ r, field r 2) id (drop 1 (ReadAll records))) as [r'|] eqn:Hr'.
  - exists id, (accountOfRow r'). split; [by rewrite Heq|].
    apply Hkey. by rewrite Heq.
  - exfalso. unfold lastRowFor in Hr'. apply last_None in Hr'.
    assert (r ∈ filter (λ r, 4 ≤ length r ∧ field r 2 = id) (drop 1 (ReadAll records)))
      as Hin';
      [|rewrite Hr' in Hin'; by inversion Hin'].
    apply list_elem_of_filter. done.
Qed.

Lemma load_store_subjects_in_analysis_store_witness :
  stored (readExistingCSVForAnalysis
            (Some [csvHeader; ["p"; "e"; "1"; "active"]; ["q"; "f"; "1"; "active"]])) "1".
Proof.
  apply load_store_subjects_in_analysis_store.
  exists "p|e|1", (mkServiceAccount "p" "e" "1" "active"). by vm_compute.
Defined.

(** ** What load mode does to the store *)

(** X7. After load mode, every entry is filed under the key of its own
    fields, and two entries with the same identity triple are the same
    entry: the store never holds two entries for one identity. *)
Theorem one_entry_per_identity file arrived k1 k2 a1 a2 :
  (loadMode file arrived).1 !! k1 = Some a1 →
  (loadMode file arrived).1 !! k2 = Some a2 →
  identity a1 = identity a2 →
  k1 = keyOf a1 ∧ k1 = k2 ∧ a1 = a2.
Proof.
  intros H1 H2 Hid.
  pose proof (wellKeyed_loadMode file arrived k1 a1 H1) as E1.
  pose proof (wellKeyed_loadMode file arrived k2 a2 H2) as E2.
  assert (k1 = k2) as Hk.
  { rewrite E1, E2. unfold keyOf. by inversion Hid. }
  split; [done|]. split; [done|]. subst k2. congruence.
Qed.

Lemma one_entry_per_identity_witness :
  let file := Some [csvHeader; ["p1"; "e1"; "s1"; "deleted"]] in
  let arrived := query Examples.directory <$> [Examples.project "p1"] in
  "p1|e1|s1" = keyOf (mkServiceAccount "p1" "e1" "s1" "active").
Proof.
  intros file arrived.
  apply (one_entry_per_identity file arrived "p1|e1|s1" "p1|e1|s1"
           (mkServiceAccount "p1" "e1" "s1" "active")
           (mkServiceAccount "p1" "e1" "s1" "active")); by vm_compute.
Defined.

(** X8. Load mode never drops a key of the loaded store, and an entry of
    the final store is either the loaded entry, untouched, or the "active"
    entry of an account returned by a successful query of the run. *)
Theorem load_mode_only_upserts file arrived k :
  (is_Some (readExistingCSV file !! k) → is_Some ((loadMode file arrived).1 !! k))
  ∧ (∀ acc, (loadMode file arrived).1 !! k = Some acc →
       readExistingCSV file !! k = Some acc
       ∨ ∃ res a, res ∈ arrived ∧ succeeded res ∧ a ∈ ServiceAccounts res
                  ∧ k = keyIn res a
                  ∧ acc = mkServiceAccount (ProjectId (ResProject res))
                            (Email a) (UniqueId a) "active").
Proof.
  rewrite loadMode_store. split.
  - intros Hk. rewrite lookup_foldl_assign. by destruct (lastWrite _ _).
  - intros acc. rewrite lookup_foldl_assign.
    destruct (lastWrite k (arrived ≫= writes)) as [v|] eqn:Hv; [|by left].
    intros [= <-]. right.
    apply lastWrite_Some_elem, bind_writes_elem in Hv as (res & Hres & Hin).
    apply writes_elem in Hin as (Hok & a & Ha & Hk & Hv).
    by exists res, a.
Qed.

Lemma load_mode_only_upserts_witness :
  let file := Some [csvHeader; ["p2"; "e2"; "s2"; "deleted"]] in
  let arrived := query Examples.directory
                   <$> [Examples.project "p1"; Examples.project "p2"] in
  is_Some ((loadMode file arrived).1 !! "p2|e2|s2").
Proof.
  intros file arrived. apply (load_mode_only_upserts file arrived "p2|e2|s2").
  eexists. by vm_compute.
Defined.

Lemma lastWrite_twice k ws : lastWrite k (ws ++ ws) = lastWrite k ws.
Proof. rewrite lastWrite_app. by destruct (lastWrite k ws). Qed.

(** X9. Loading the file a run wrote and reconciling the same outcomes
    again in the same order gives the same store, also when store keys
    collide, provided no field of an entry of the store that was written
    holds a carriage return right before a line feed. *)
Theorem replay_same_order_changes_nothing file arrived written :
  written ≡ₚ map_to_list (loadMode file arrived).1 →
  plainStore (loadMode file arrived).1 →
  (loadMode (csvFile (writeCSV written)) arrived).1 = (loadMode file arrived).1.
Proof.
  intros Hwritten Hplain.
  rewrite (loadMode_store (csvFile _)),
    (csv_round_trip (loadMode file arrived).1 written)
    by (done || apply wellKeyed_loadMode).
  apply map_eq. intros k.
  rewrite lookup_foldl_assign, loadMode_store, lookup_foldl_assign.
  by destruct (lastWrite k (arrived ≫= writes)).
Qed.

Lemma replay_same_order_changes_nothing_witness :
  let arrived := query Examples.twoProjects
                   <$> [Examples.project "a|b"; Examples.project "a"] in
  (loadMode (persist (loadMode None arrived).1) arrived).1 = (loadMode None arrived).1.
Proof.
  intros arrived.
  apply (replay_same_order_changes_nothing None arrived
           (map_to_list (loadMode None arrived).1)); [done|].
  apply (bool_decide_unpack _). by vm_compute.
Defined.

(** ** The set of processed projects *)

Lemma processed_reconcile st res p :
  wasProcessed (processed (reconcile st res)) p = true
  ↔ wasProcessed (processed st) p = true
    ∨ (succeeded res ∧ ProjectId (ResProject res) = p).
Proof.
  unfold reconcile, succeeded, wasProcessed.
  destruct (Error res) as [e|]; simpl.
  - split; [by left|]. by intros [?|[? _]].
  - destruct (decide (ProjectId (ResProject res) = p)) as [<-|Hne].
    + rewrite lookup_insert_eq. simpl. split; [by right|done].
    + rewrite lookup_insert_ne by done. split; [by left|]. by intros [?|[_ ?]].
Qed.

Lemma processed_reconcileAll arrived st p :
  wasProcessed (processed (reconcileAll st arrived)) p = true
  ↔ wasProcessed (processed st) p = true
    ∨ ∃ res, res ∈ arrived ∧ succeeded res ∧ ProjectId (ResProject res) = p.
Proof.
  revert st. induction arrived as [|res arrived IH]; intros st.
  - simpl. split; [by left|]. intros [?|(res & Hin & _)]; [done|by inversion Hin].
  - unfold reconcileAll in *. simpl. rewrite IH, processed_reconcile. split.
    + intros [[?|[Hok Hp]]|(r & Hin & Hok & Hp)].
      * by left.
      * right. exists res. split; [left|done].
      * right. exists r. split; [by right|done].
    + intros [?|(r & Hin & Hok & Hp)]; [by left; left|].
      apply elem_of_cons in Hin as [->|Hin].
      * left. by right.
      * right. by exists r.
Qed.

Lemma processed_values arrived st p b :
  (∀ q c, processed st !! q = Some c → c = true) →
  processed (reconcileAll st arrived) !! p = Some b → b = true.
Proof.
  revert st. induction arrived as [|res arrived IH]; intros st Hst; [apply Hst|].
  unfold reconcileAll in *. simpl. apply IH.
  intros q c. unfold reconcile. destruct (Error res); simpl; [apply Hst|].
  intros [[_ <-]|[_ Hq]]%lookup_insert_Some; [done|by eapply Hst].
Qed.

Lemma processed_on_return client projects c existing statuses sched s p :
  exec client projects c (start projects existing statuses) sched = Some s →
  returned s →
  (wasProcessed (processed (recon s)) p = true
   ↔ ∃ proj, proj ∈ projects ∧ ProjectId proj = p ∧ succeeded (query client proj))
  ∧ (∀ b, processed (recon s) !! p = Some b → b = true).
Proof.
  intros Hs Hret.
  destruct (run_outcomes client projects c existing statuses sched s Hs Hret)
    as [-> Hperm].
  split.
  - rewrite processed_reconcileAll. simpl. split.
    + intros [Hp|(res & Hin & Hok & Hp)]; [done|].
      rewrite Hperm in Hin. apply list_elem_of_fmap in Hin as (proj & -> & Hin).
      by exists proj.
    + intros (proj & Hin & Hp & Hok). right. exists (query client proj).
      split; [|done]. rewrite Hperm. apply list_elem_of_fmap. by exists proj.
  - intros b. apply processed_values. intros q c' Hq. simpl in Hq.
    by apply lookup_empty_Some in Hq.
Qed.

(** X10. When [concurrentProjectProcessing] has returned, the set it
    returns holds exactly the ids of the projects whose query succeeded, and
    holds them with the value [true]. *)
Theorem processed_are_the_succeeded client projects c existing statuses sched s p :
  exec client projects c (start projects existing statuses) sched = Some s →
  returned s →
  (wasProcessed (processed (recon s)) p = true
   ↔ ∃ proj, proj ∈ projects ∧ ProjectId proj = p ∧ succeeded (query client proj))
  ∧ (∀ b, processed (recon s) !! p = Some b → b = true).
Proof. apply processed_on_return. Qed.

Lemma processed_are_the_succeeded_witness :
  let projects := [Examples.project "p1"; Examples.project "p2"] in
  let sched := [Acquire 1; Acquire 0; Query 0; Query 1; Handoff 1; Signal 1;
                Release 1; Reconcile 1; Handoff 0; Signal 0; Reconcile 0; Release 0;
                Exit 0; Exit 1; Close; Finish] in
  ∃ s, exec Examples.directory projects 2 (start projects ∅ []) sched = Some s
       ∧ wasProcessed (processed (recon s)) "p1" = true
       ∧ wasProcessed (processed (recon s)) "p2" = false.
Proof.
  intros projects sched. eexists. split; [by vm_compute|]. split; [|done].
  refine (proj2 (proj1 (processed_are_the_succeeded
                          Examples.directory projects 2 ∅ [] sched _ "p1" _ _)) _);
    [by vm_compute|done|].
  exists (Examples.project "p1"). split; [left|done].
Defined.

(** ** Runs of the fan-out compared *)

Lemma processed_lookup_true (m : Processed) p :
  (∀ b, m !! p = Some b → b = true) →
  m !! p = if wasProcessed m p then Some true else None.
Proof.
  unfold wasProcessed. intros H. destruct (m !! p) as [b|] eqn:E; simpl; [|done].
  rewrite (H b eq_refl). done.
Qed.

(** X11. Two returned runs over the same projects and the same store, with
    whatever schedules and concurrency bounds, end with the same store, the
    same set of processed projects and the same access records up to order,
    provided accounts of different projects never share a store key. *)
Theorem returned_runs_agree client projects c1 c2 existing statuses
    sched1 sched2 s1 s2 :
  exec client projects c1 (start projects existing statuses) sched1 = Some s1 →
  returned s1 →
  exec client projects c2 (start projects existing statuses) sched2 = Some s2 →
  returned s2 →
  (∀ p q a b, p ∈ projects → q ∈ projects →
     succeeded (query client p) → succeeded (query client q) →
     a ∈ ServiceAccounts (query client p) → b ∈ ServiceAccounts (query client q) →
     keyIn (query client p) a = keyIn (query client q) b →
     ProjectId p = ProjectId q) →
  existingAccounts (recon s1) = existingAccounts (recon s2)
  ∧ processed (recon s1) = processed (recon s2)
  ∧ accessStatuses (recon s1) ≡ₚ accessStatuses (recon s2).
Proof.
  intros Hs1 Hret1 Hs2 Hret2 Hapart.
  pose proof (processed_on_return client projects c1 existing statuses
                sched1 s1) as P1.
  pose proof (processed_on_return client projects c2 existing statuses
                sched2 s2) as P2.
  destruct (run_outcomes client projects c1 existing statuses sched1 s1 Hs1 Hret1)
    as [E1 Hperm1].
  destruct (run_outcomes client projects c2 existing statuses sched2 s2 Hs2 Hret2)
    as [E2 Hperm2].
  split; [|split].
  - rewrite E1, E2, !reconcileAll_store. simpl. apply map_eq. intros k.
    rewrite !lookup_foldl_assign.
    rewrite (lastWrite_orders client projects _ _ Hperm2 Hperm1); [done|].
    intros r1 r2 a b Hr1 Hr2. rewrite Hperm2 in Hr1, Hr2.
    apply list_elem_of_fmap in Hr1 as (p & -> & Hp).
    apply list_elem_of_fmap in Hr2 as (q & -> & Hq). simpl. by apply Hapart.
  - apply map_eq. intros p.
    destruct (P1 p Hs1 Hret1) as [I1 V1]. destruct (P2 p Hs2 Hret2) as [I2 V2].
    rewrite (processed_lookup_true _ p V1), (processed_lookup_true _ p V2).
    assert (wasProcessed (processed (recon s1)) p = true
            ↔ wasProcessed (processed (recon s2)) p = true) as Hiff
      by (by rewrite I1, I2).
    destruct (wasProcessed (processed (recon s1)) p),
             (wasProcessed (processed (recon s2)) p); try done.
    + by destruct Hiff as [H _]; specialize (H eq_refl).
    + by destruct Hiff as [_ H]; specialize (H eq_refl).
  - rewrite E1, E2, !reconcileAll_access. simpl. by rewrite Hperm1, Hperm2.
Qed.

Lemma returned_runs_agree_witness :
  let projects := [Examples.project "p1"; Examples.project "p3"] in
  let sched1 := [Acquire 0; Query 0; Handoff 0; Signal 0; Reconcile 0; Release 0; Exit 0;
                 Acquire 1; Query 1; Handoff 1; Signal 1; Reconcile 1; Release 1; Exit 1;
                 Close; Finish] in
  let sched2 := [Acquire 1; Acquire 0; Query 0; Query 1; Handoff 1; Signal 1;
                 Release 1; Reconcile 1; Handoff 0; Signal 0; Reconcile 0; Release 0;
                 Exit 0; Exit 1; Close; Finish] in
  ∃ s1 s2,
    exec Examples.directory projects 1 (start projects ∅ []) sched1 = Some s1
    ∧ exec Examples.directory projects 2 (start projects ∅ []) sched2 = Some s2
    ∧ existingAccounts (recon s1) = existingAccounts (recon s2).
Proof.
  intros projects sched1 sched2. do 2 eexists.
  split; [by vm_compute|]. split; [by vm_compute|].
  refine (proj1 (returned_runs_agree Examples.directory projects 1 2 ∅ []
                   sched1 sched2 _ _ _ _ _ _ _)); [by vm_compute|done|by vm_compute|done|].
  intros p q a b Hp Hq _ _ Ha Hb.
  repeat (apply elem_of_cons in Hp as [->|Hp]);
  repeat (apply elem_of_cons in Hq as [->|Hq]);
  try (by apply elem_of_nil in Hp); try (by apply elem_of_nil in Hq);
  repeat (apply elem_of_cons in Ha as [->|Ha]);
  repeat (apply elem_of_cons in Hb as [->|Hb]);
  try (by apply elem_of_nil in Ha); try (by apply elem_of_nil in Hb);
  done.
Defined.

(** ** The state of the fan-out on return *)

(** X12. At any time the signals counted by the reporter and those still
    in the [progress] channel number at most the projects; when the
    function has returned they number exactly the projects, every worker
    has finished, [sem] is empty and [results] is closed. *)
Theorem nothing_left_running client projects c existing statuses sched s :
  exec client projects c (start projects existing statuses) sched = Some s →
  buffered s + rendered s ≤ length projects
  ∧ (returned s →
     buffered s + rendered s = length projects
     ∧ permits s = 0
     ∧ closed s = true
     ∧ ∀ i w, workers s !! i = Some w → w = WExited).
Proof.
  intros Hs.
  pose proof (Inv_exec client projects c _ existing statuses sched s eq_refl Hs) as HI.
  pose proof (inv_buffer _ _ _ _ _ _ HI) as Hbuf.
  pose proof (inv_consumer _ _ _ _ _ _ HI) as Hcons.
  assert (length (arrivals sched) ≤ length projects) as Hlen.
  { rewrite <- (length_seq (length projects) 0).
    apply submseteq_length, NoDup_submseteq; [apply HI|].
    intros j (w & Hw & _)%(inv_delivered _ _ _ _ _ _ HI).
    apply elem_of_seq. apply lookup_lt_Some in Hw.
    rewrite (inv_length _ _ _ _ _ _ HI) in Hw. lia. }
  split.
  - rewrite Hbuf. destruct (consumer s) as [|i res|i res|].
    + destruct Hcons as [Ha Hsig]. by rewrite Hsig, <- Ha.
    + destruct Hcons as (Ha & Hsig & _). rewrite Hsig.
      rewrite Ha, length_app in Hlen. lia.
    + destruct Hcons as (Ha & Hsig & _). by rewrite Hsig, <- Ha.
    + destruct Hcons as [Ha Hsig]. by rewrite Hsig, <- Ha.
  - intros Hret. pose proof (inv_returned _ _ _ _ _ _ HI Hret) as Hcl.
    pose proof (inv_closed _ _ _ _ _ _ HI Hcl) as Hex.
    unfold returned in Hret. rewrite Hret in Hcons. destruct Hcons as [Ha Hsig].
    split; [|split; [|split; [done|done]]].
    + rewrite Hbuf, Hsig, <- Ha.
      by rewrite (arrivals_all client projects c existing statuses sched s Hs Hret),
        length_seq.
    + destruct (inv_permits _ _ _ _ _ _ HI) as [-> _].
      apply holders_idle, Forall_forall. intros w Hw.
      apply list_elem_of_lookup in Hw as [i Hw]. by rewrite (Hex i w Hw).
Qed.

Lemma nothing_left_running_witness :
  let projects := [Examples.project "p1"; Examples.project "p2"] in
  let sched := [Acquire 1; Acquire 0; Query 0; Query 1; Handoff 1; Signal 1;
                Release 1; Reconcile 1; Render; Handoff 0; Signal 0; Reconcile 0] in
  ∃ s, exec Examples.directory projects 2 (start projects ∅ []) sched = Some s
       ∧ buffered s + rendered s ≤ 2.
Proof.
  intros projects sched. eexists. split; [by vm_compute|].
  refine (proj1 (nothing_left_running Examples.directory projects 2 ∅ [] sched _ _)).
  by vm_compute.
Defined.

(** ** Each worker takes each of its steps once *)

Section Ranks.
Variable client : string → list ServiceAccount * option string.
Variable projects : list Project.
Variable c : nat.

Lemma rankAt_insert s i j w :
  i < length (workers s) →
  from_option phaseRank 0 (<[i := w]> (workers s) !! j)
  = if decide (i = j) then phaseRank w else rankAt s j.
Proof.
  intros Hi. unfold rankAt. case_decide as Hij.
  - subst j. by rewrite list_lookup_insert_eq.
  - by rewrite list_lookup_insert_ne.
Qed.

(** A step changes the rank of a worker only if it is a step of that
    worker's body, the one its rank calls for, and then by one. *)
Lemma step_rank s a s' j :
  step client projects c s a = Some s' →
  match workerAction a with
  | Some (i, r) =>
      rankAt s i = r ∧ rankAt s' i = S r ∧ (j ≠ i → rankAt s' j = rankAt s j)
  | None => rankAt s' j = rankAt s j
  end.
Proof.
  intros Hstep. destruct a as [i|i|i|i|i|i|i| | |]; simpl in Hstep; simpl.
  - destruct (workers s !! i) as [[]|] eqn:Hw; try done.
    case_decide; [|done]. injection Hstep as <-.
    pose proof (lookup_lt_Some _ _ _ Hw) as Hi. unfold rankAt at 1 2 3. simpl.
    rewrite Hw, !rankAt_insert by done. rewrite decide_True by done.
    split; [done|]. split; [done|]. intros Hne. by rewrite decide_False.
  - destruct (workers s !! i) as [[]|] eqn:Hw; try done.
    destruct (projects !! i); [|done]. injection Hstep as <-.
    pose proof (lookup_lt_Some _ _ _ Hw) as Hi. unfold rankAt at 1 2 3. simpl.
    rewrite Hw, !rankAt_insert by done. rewrite decide_True by done.
    split; [done|]. split; [done|]. intros Hne. by rewrite decide_False.
  - destruct (workers s !! i) as [[| |res| | |]|] eqn:Hw; try done.
    destruct (consumer s); try done. destruct (closed s); [done|].
    injection Hstep as <-.
    pose proof (lookup_lt_Some _ _ _ Hw) as Hi. unfold rankAt at 1 2 3. simpl.
    rewrite Hw, !rankAt_insert by done. rewrite decide_True by done.
    split; [done|]. split; [done|]. intros Hne. by rewrite decide_False.
  - destruct (consumer s); try done. case_decide; [|done]. by injection Hstep as <-.
  - destruct (consumer s); try done. case_decide; [|done]. by injection Hstep as <-.
  - destruct (workers s !! i) as [[]|] eqn:Hw; try done. injection Hstep as <-.
    pose proof (lookup_lt_Some _ _ _ Hw) as Hi. unfold rankAt at 1 2 3. simpl.
    rewrite Hw, !rankAt_insert by done. rewrite decide_True by done.
    split; [done|]. split; [done|]. intros Hne. by rewrite decide_False.
  - destruct (workers s !! i) as [[]|] eqn:Hw; try done. injection Hstep as <-.
    pose proof (lookup_lt_Some _ _ _ Hw) as Hi. unfold rankAt at 1 2 3. simpl.
    rewrite Hw, !rankAt_insert by done. rewrite decide_True by done.
    split; [done|]. split; [done|]. intros Hne. by rewrite decide_False.
  - destruct (forallb isExited (workers s)); [|done].
    destruct (closed s); [done|]. by injection Hstep as <-.
  - destruct (consumer s); try done. destruct (closed s); [|done].
    by injection Hstep as <-.
  - destruct (buffered s); [done|]. by injection Hstep as <-.
Qed.

Lemma step_rank_mono s a s' j :
  step client projects c s a = Some s' → rankAt s j ≤ rankAt s' j.
Proof.
  intros Hstep. pose proof (step_rank s a s' j Hstep) as H.
  destruct (workerAction a) as [[i r]|]; [|lia].
  destruct H as (H1 & H2 & H3). destruct (decide (j = i)) as [->|Hne]; [lia|].
  rewrite H3 by done. lia.
Qed.

Lemma exec_rank_mono sched s s' j :
  exec client projects c s sched = Some s' → rankAt s j ≤ rankAt s' j.
Proof.
  revert s. induction sched as [|a sched IH]; intros s; simpl.
  - by intros [= <-].
  - destruct (step client projects c s a) as [s1|] eqn:Hstep; [|done].
    intros Hs'. apply IH in Hs'. apply (step_rank_mono _ _ _ j) in Hstep. lia.
Qed.

Lemma exec_split sched1 sched2 s s' :
  exec client projects c s (sched1 ++ sched2) = Some s' →
  ∃ s1, exec client projects c s sched1 = Some s1
        ∧ exec client projects c s1 sched2 = Some s'.
Proof. rewrite exec_app. intros (s1 & H1 & H2)%bind_Some. by exists s1. Qed.

Lemma worker_action_once sched s s' a i r k1 k2 :
  exec client projects c s sched = Some s' →
  workerAction a = Some (i, r) →
  sched !! k1 = Some a → sched !! k2 = Some a → k1 < k2 → False.
Proof.
  intros Hs Ha H1 H2 Hlt.
  rewrite <- (take_drop_middle _ _ _ H2) in Hs.
  apply exec_split in Hs as (sB & HsB & Hrest). simpl in Hrest.
  destruct (step client projects c sB a) as [sB'|] eqn:HstepB; [|done].
  assert (take k2 sched !! k1 = Some a) as H1' by (by rewrite lookup_take_lt).
  rewrite <- (take_drop_middle _ _ _ H1') in HsB.
  apply exec_split in HsB as (sA & HsA & Hmid). simpl in Hmid.
  destruct (step client projects c sA a) as [sA'|] eqn:HstepA; [|done].
  pose proof (step_rank _ _ _ i HstepA) as RA.
  pose proof (step_rank _ _ _ i HstepB) as RB.
  rewrite Ha in RA, RB. destruct RA as (_ & RA & _). destruct RB as (RB & _ & _).
  pose proof (exec_rank_mono _ _ _ i Hmid). lia.
Qed.

Lemma worker_action_taken sched s s' a i r :
  exec client projects c s sched = Some s' →
  workerAction a = Some (i, r) →
  rankAt s i ≤ r → r < rankAt s' i → a ∈ sched.
Proof.
  intros Hs Ha. revert s Hs. induction sched as [|b sched IH]; intros s; simpl.
  - intros [= <-]. lia.
  - destruct (step client projects c s b) as [s1|] eqn:Hstep; [|done].
    intros Hs' Hlo Hhi.
    destruct (decide (rankAt s1 i ≤ r)) as [Hle|Hgt].
    + right. by eapply IH.
    + assert (b = a) as ->; [|left].
      pose proof (step_rank _ _ _ i Hstep) as R.
      destruct (workerAction b) as [[j q]|] eqn:Hb; [|lia].
      destruct R as (R1 & R2 & R3).
      destruct (decide (i = j)) as [->|Hne]; [|rewrite R3 in Hgt by done; lia].
      assert (q = r) as -> by lia.
      destruct a, b; simpl in *; congruence.
Qed.
End Ranks.

(** X13. In a run each worker takes each step of its body (taking the
    permit, the query, the hand-off, the release, the exit) at most once,
    and in a returned run exactly once: no project is queried twice and
    none is left out. *)
Theorem worker_steps_once client projects c existing statuses sched s a i r :
  exec client projects c (start projects existing statuses) sched = Some s →
  workerAction a = Some (i, r) →
  (∀ k1 k2, sched !! k1 = Some a → sched !! k2 = Some a → k1 = k2)
  ∧ (returned s → i < length projects → a ∈ sched).
Proof.
  intros Hs Ha. split.
  - intros k1 k2 H1 H2. destruct (Nat.lt_trichotomy k1 k2) as [Hlt|[->|Hlt]]; [|done|].
    + exfalso.
      exact (worker_action_once client projects c sched _ s a i r k1 k2 Hs Ha H1 H2 Hlt).
    + exfalso.
      exact (worker_action_once client projects c sched _ s a i r k2 k1 Hs Ha H2 H1 Hlt).
  - intros Hret Hi.
    pose proof (Inv_exec client projects c _ existing statuses sched s eq_refl Hs) as HI.
    eapply (worker_action_taken client projects c sched); [done|done| |].
    + unfold rankAt, start. simpl.
      rewrite list_lookup_fmap. destruct (projects !! i); simpl; [|lia].
      destruct a; simpl in Ha; simplify_eq; lia.
    + rewrite <- (inv_length _ _ _ _ _ _ HI) in Hi.
      apply lookup_lt_is_Some in Hi as [w Hw].
      pose proof (inv_closed _ _ _ _ _ _ HI (inv_returned _ _ _ _ _ _ HI Hret) i w Hw)
        as ->.
      unfold rankAt. rewrite Hw. simpl. destruct a; simpl in Ha; simplify_eq; lia.
Qed.

Lemma worker_steps_once_witness :
  let projects := [Examples.project "p1"; Examples.project "p2"] in
  let sched := [Acquire 1; Acquire 0; Query 0; Query 1; Handoff 1; Signal 1;
                Release 1; Reconcile 1; Handoff 0; Signal 0; Reconcile 0; Release 0;
                Exit 0; Exit 1; Close; Finish] in
  Query 1 ∈ sched.
Proof.
  intros projects sched.
  assert (is_Some (exec Examples.directory projects 2 (start projects ∅ []) sched))
    as [s Hs] by (eexists; vm_compute; reflexivity).
  refine (proj2 (worker_steps_once Examples.directory projects 2 ∅ [] sched s
                   (Query 1) 1 1 Hs eq_refl) _ _).
  - vm_compute in Hs. by injection Hs as <-.
  - simpl. lia.
Defined.

(** ** The searches of analysis mode *)

Lemma searchLoop_from matches entries out found :
  foldl (searchStep matches) (out, found) entries
  = (out ++ (filter (λ kv, matches kv.2 = true) entries).*2,
     found || bool_decide (filter (λ kv, matches kv.2 = true) entries ≠ [])).
Proof.
  revert out found. induction entries as [|kv entries IH]; intros out found; simpl.
  - by rewrite app_nil_r, orb_false_r.
  - unfold searchStep at 2. rewrite filter_cons.
    destruct (decide (matches kv.2 = true)) as [Hm|Hm].
    + rewrite Hm, IH, fmap_cons, <- app_assoc. simpl.
      by rewrite orb_true_r.
    + apply not_true_is_false in Hm. rewrite Hm. apply IH.
Qed.

Lemma searchLoop_printed matches entries :
  (searchLoop matches entries).1 = (filter (λ kv, matches kv.2 = true) entries).*2.
Proof. unfold searchLoop. by rewrite searchLoop_from. Qed.

Lemma searchLoop_found matches entries :
  (searchLoop matches entries).2 = false ↔ (searchLoop matches entries).1 = [].
Proof.
  unfold searchLoop. rewrite searchLoop_from. cbn [fst snd orb app].
  case_bool_decide as H.
  - split; [done|]. intros E. apply fmap_nil_inv in E. done.
  - split; [|done]. intros _. by rewrite H.
Qed.

Lemma searchLoop_elem matches (accounts : Store) acc :
  acc ∈ (searchLoop matches (map_to_list accounts)).1
  ↔ ∃ k, accounts !! k = Some acc ∧ matches acc = true.
Proof.
  rewrite searchLoop_printed, list_elem_of_fmap. split.
  - intros ([k a] & -> & [Hm Hin]%list_elem_of_filter).
    exists k. split; [by apply elem_of_map_to_list|done].
  - intros (k & Hk & Hm). exists (k, acc). split; [done|].
    apply list_elem_of_filter. split; [done|]. by apply elem_of_map_to_list.
Qed.

Lemma searchLoop_count matches (accounts : Store) :
  length (searchLoop matches (map_to_list accounts)).1
  = size (filter (λ kv, matches kv.2 = true) accounts).
Proof.
  rewrite searchLoop_printed, length_fmap, map_filter_alt, map_size_list_to_map; [done|].
  apply NoDup_fmap_fst.
  - intros k a1 a2 [_ H1]%list_elem_of_filter [_ H2]%list_elem_of_filter.
    exact (map_to_list_unique _ _ _ _ H1 H2).
  - apply NoDup_filter. apply NoDup_map_to_list.
Qed.

(** X14. The project search prints exactly the stored accounts of that
    project, one line group per entry, and reports that nothing was found
    exactly when the store holds no account of the project. *)
Theorem searchByProjectID_prints_the_project (accounts : Store) (projectID : string) :
  (∀ acc, acc ∈ (searchByProjectID accounts projectID).1
          ↔ ∃ k, accounts !! k = Some acc ∧ ProjectID acc = projectID)
  ∧ length (searchByProjectID accounts projectID).1
    = size (filter (λ kv, ProjectID kv.2 = projectID) accounts)
  ∧ ((searchByProjectID accounts projectID).2 = false
     ↔ ∀ k acc, accounts !! k = Some acc → ProjectID acc ≠ projectID).
Proof.
  unfold searchByProjectID. split; [|split].
  - intros acc. rewrite searchLoop_elem. by setoid_rewrite bool_decide_eq_true.
  - rewrite searchLoop_count. f_equal. apply map_filter_ext.
    intros k acc _. simpl. by rewrite bool_decide_eq_true.
  - rewrite searchLoop_found. split.
    + intros Hnil k acc Hk Hp.
      assert (acc ∈ (searchLoop (λ acc, bool_decide (ProjectID acc = projectID))
                       (map_to_list accounts)).1) as Hin.
      { apply searchLoop_elem. exists k. split; [done|]. by apply bool_decide_eq_true. }
      rewrite Hnil in Hin. by inversion Hin.
    + intros Hnone.
      destruct (searchLoop _ _).1 as [|acc l] eqn:E; [done|]. exfalso.
      assert (acc ∈ (searchLoop (λ acc, bool_decide (ProjectID acc = projectID))
                       (map_to_list accounts)).1) as Hin by (rewrite E; left).
      apply searchLoop_elem in Hin as (k & Hk & Hp%bool_decide_eq_true).
      by eapply Hnone.
Qed.

Lemma searchByProjectID_prints_the_project_witness :
  let accounts : Store :=
    <["1" := mkServiceAccount "p" "e" "1" "active"]>
      (<["2" := mkServiceAccount "q" "f" "2" "active"]> ∅) in
  (searchByProjectID accounts "r").2 = false.
Proof.
  intros accounts.
  apply (searchByProjectID_prints_the_project accounts "r").
  intros k acc Hk. unfold accounts in Hk.
  apply lookup_insert_Some in Hk as [[_ <-]|[_ Hk]]; [done|].
  apply lookup_insert_Some in Hk as [[_ <-]|[_ Hk]]; [done|].
  by apply lookup_empty_Some in Hk.
Defined.

(** ** The bulk lookup and the subject search *)

(** X15. In the bulk lookup the accounts found and the ids missing number
    together the non-empty ids requested, and every id reported missing is
    non-empty and carried by no stored account. *)
Theorem bulk_lookup_counts (accounts : Store) (input : string) :
  length (bulkSubjectIDLookup accounts input).1
  + length (bulkSubjectIDLookup accounts input).2
  = length (requestedIDs input)
  ∧ Forall (λ id, id ≠ "" ∧ ¬ stored accounts id) (bulkSubjectIDLookup accounts input).2.
Proof.
  unfold bulkSubjectIDLookup. rewrite bulk_loop. cbn [fst snd app].
  fold (requestedIDs input). split.
  - induction (requestedIDs input) as [|id ids IH]; [done|].
    rewrite filter_cons. cbn [omap list_omap].
    destruct (lookupSubject (map_to_list accounts) id) as [acc|] eqn:Hlk.
    + rewrite decide_False; [simpl in *; lia|].
      intros Hn. apply lookupSubject_None in Hn. congruence.
    + rewrite decide_True by (by apply lookupSubject_None). simpl in *. lia.
  - apply Forall_forall. intros id [Hns Hin]%list_elem_of_filter. split; [|done].
    unfold requestedIDs in Hin. by apply list_elem_of_filter in Hin as [? _].
Qed.

Lemma lookupSubject_head entries id :
  lookupSubject entries id = head (filter (λ kv, UniqueId kv.2 = id) entries).*2.
Proof.
  unfold lookupSubject. induction entries as [|kv entries IH]; [done|].
  rewrite filter_cons. cbn [list_find]. destruct (decide (UniqueId kv.2 = id)); [done|].
  rewrite <- IH. by destruct (list_find _ entries) as [[? ?]|].
Qed.

Lemma Split_noComma s : noComma s = true → Split s "," = [s].
Proof.
  induction s as [|c s IH]; [done|]. simpl.
  intros [Hc Hs]%andb_prop. apply negb_true_iff in Hc. rewrite Hc, IH; done.
Qed.

Lemma analysis_store_key file k acc :
  readExistingCSVForAnalysis file !! k = Some acc → UniqueId acc = k.
Proof.
  destruct file as [records|]; [|simpl; by intros ?%lookup_empty_Some].
  apply analysis_store_lookup.
Qed.

Lemma NoDup_all_equal {A} (l : list A) x :
  NoDup l → (∀ y, y ∈ l → y = x) → l = [] ∨ l = [x].
Proof.
  intros Hnd Hall. destruct l as [|y [|z l]]; [by left| |].
  - right. f_equal. apply Hall. left.
  - exfalso. apply NoDup_cons in Hnd as [Hy _]. apply Hy.
    rewrite (Hall y), <- (Hall z); [left|right; left|left].
Qed.

Lemma subject_hits file id :
  filter (λ kv, UniqueId kv.2 = id) (map_to_list (readExistingCSVForAnalysis file))
  = match readExistingCSVForAnalysis file !! id with
    | Some acc => [(id, acc)]
    | None => []
    end.
Proof.
  set (accounts := readExistingCSVForAnalysis file).
  set (hits := filter (λ kv, UniqueId kv.2 = id) (map_to_list accounts)).
  assert (∀ kv, kv ∈ hits ↔ accounts !! id = Some kv.2 ∧ kv.1 = id) as Hin.
  { intros [k a]. unfold hits. rewrite list_elem_of_filter, elem_of_map_to_list. simpl.
    split.
    - intros [Hu Hk]. pose proof (analysis_store_key file k a Hk). split; congruence.
    - intros [Hk Hid]. simpl in Hid. subst k. split; [|done].
      by apply (analysis_store_key file). }
  assert (NoDup hits) as Hnd by (apply NoDup_filter; apply NoDup_map_to_list).
  destruct (accounts !! id) as [acc|] eqn:Hlk.
  - destruct (NoDup_all_equal hits (id, acc) Hnd) as [E|E]; [| |done].
    + intros [k a] [Hk Hid]%Hin. simpl in Hk, Hid. congruence.
    + exfalso. assert ((id, acc) ∈ hits) as H by (by apply Hin).
      rewrite E in H. by inversion H.
  - destruct hits as [|kv l]; [done|]. exfalso.
    assert (kv ∈ kv :: l) as H by left. by apply Hin in H as [? _].
Qed.

(** X16. Over the store of analysis mode, the subject search for an id
    that is not empty and has no comma and no surrounding white space
    prints the entry filed under that id and no other, and the bulk lookup
    of that single id reports the same: the same account as found, or the
    id as missing exactly when the search reports nothing.  For the empty
    id the two differ: the bulk lookup reports nothing, neither found nor
    missing, whatever the store holds under the empty subject id. *)
Theorem subject_search_agrees_with_bulk (file : option (list Row)) (id : string) :
  (noComma id = true → TrimSpace id = id → id ≠ "" →
   (searchBySubjectID (readExistingCSVForAnalysis file) id).1
     = match readExistingCSVForAnalysis file !! id with
       | Some acc => [acc]
       | None => []
       end
   ∧ bulkSubjectIDLookup (readExistingCSVForAnalysis file) id
     = ((searchBySubjectID (readExistingCSVForAnalysis file) id).1,
        if (searchBySubjectID (readExistingCSVForAnalysis file) id).2
        then [] else [id]))
  ∧ bulkSubjectIDLookup (readExistingCSVForAnalysis file) "" = ([], []).
Proof.
  split; [|done].
  intros Hcomma Htrim Hne.
  assert (∀ accounts : Store,
            (searchBySubjectID accounts id).1
            = (filter (λ kv, UniqueId kv.2 = id) (map_to_list accounts)).*2) as Hprinted.
  { intros accounts. unfold searchBySubjectID. rewrite searchLoop_printed. f_equal.
    apply list_filter_iff. intros kv. by rewrite bool_decide_eq_true. }
  assert ((searchBySubjectID (readExistingCSVForAnalysis file) id).1
          = match readExistingCSVForAnalysis file !! id with
            | Some acc => [acc]
            | None => []
            end) as Hone.
  { rewrite Hprinted, subject_hits. by destruct (_ !! id). }
  split; [done|].
  unfold bulkSubjectIDLookup. rewrite Split_noComma by done. simpl.
  unfold bulkStep. rewrite Htrim, decide_False by done.
  rewrite lookupSubject_head, subject_hits.
  pose proof (searchLoop_found (λ acc, bool_decide (UniqueId acc = id))
                (map_to_list (readExistingCSVForAnalysis file))) as Hfound.
  fold (searchBySubjectID (readExistingCSVForAnalysis file) id) in Hfound.
  rewrite Hone in *.
  destruct (readExistingCSVForAnalysis file !! id) as [acc|]; simpl.
  - destruct (searchBySubjectID _ _).2; [done|]. by destruct Hfound as [H _]; specialize (H eq_refl).
  - destruct (searchBySubjectID _ _).2; [|done]. by destruct Hfound as [_ H]; specialize (H eq_refl).
Qed.

Lemma subject_search_agrees_with_bulk_witness :
  let file := Some [csvHeader; ["p"; "e"; "111"; "active"]; ["q"; "f"; "222"; "active"]] in
  bulkSubjectIDLookup (readExistingCSVForAnalysis file) "222"
  = ((searchBySubjectID (readExistingCSVForAnalysis file) "222").1,
     if (searchBySubjectID (readExistingCSVForAnalysis file) "222").2 then [] else ["222"]).
Proof.
  intros file.
  apply (proj1 (subject_search_agrees_with_bulk file "222"));
    [by vm_compute|by vm_compute|done].
Defined.

(** ** The email search *)

Lemma HasPrefix_app p s : HasPrefix (p +:+ s) p = true.
Proof.
  induction p as [|a p IH]; simpl; [done|]. by rewrite Ascii.eqb_refl, IH.
Qed.

Lemma Contains_prefix s sub : HasPrefix s sub = true → Contains s sub = true.
Proof. destruct s; simpl; by intros ->. Qed.

Lemma Contains_app pre sub post : Contains (pre +:+ sub +:+ post) sub = true.
Proof.
  induction pre as [|a pre IH].
  - change ("" +:+ sub +:+ post) with (sub +:+ post).
    apply Contains_prefix, HasPrefix_app.
  - change (Contains (String a pre +:+ sub +:+ post) sub)
      with (HasPrefix (String a (pre +:+ sub +:+ post)) sub
            || Contains (pre +:+ sub +:+ post) sub).
    rewrite IH. apply orb_true_r.
Qed.

Lemma Contains_empty s : Contains s "" = true.
Proof. by destruct s. Qed.

Lemma isASCII_app s t : isASCII (s +:+ t) = isASCII s && isASCII t.
Proof.
  induction s as [|a s IH]; simpl; [done|]. by rewrite IH, andb_assoc.
Qed.

Lemma lowerASCII_app s t : lowerASCII (s +:+ t) = lowerASCII s +:+ lowerASCII t.
Proof. induction s as [|a s IH]; simpl; [done|]. by rewrite IH. Qed.

(** X17. The email search with an empty fragment prints every account;
    for ASCII fragment and email it prints an account whenever the email
    contains the fragment up to letter case, and then does not report that
    nothing was found. *)
Theorem searchByEmail_ignores_case unicodeLower (accounts : Store) k acc :
  accounts !! k = Some acc →
  acc ∈ (searchByEmail unicodeLower accounts "").1
  ∧ (∀ email pre mid post,
       Email acc = pre +:+ mid +:+ post →
       isASCII (Email acc) = true → isASCII email = true →
       lowerASCII mid = lowerASCII email →
       acc ∈ (searchByEmail unicodeLower accounts email).1
       ∧ (searchByEmail unicodeLower accounts email).2 = true).
Proof.
  intros Hk. split.
  - apply searchLoop_elem. exists k. split; [done|]. apply Contains_empty.
  - intros email pre mid post Hmail Ha He Hmid.
    assert (acc ∈ (searchByEmail unicodeLower accounts email).1) as Hin.
    { apply searchLoop_elem. exists k. split; [done|].
      unfold ToLower. rewrite Ha, He, Hmail, !lowerASCII_app, Hmid.
      apply Contains_app. }
    split; [done|].
    destruct (searchByEmail unicodeLower accounts email).2 eqn:E; [done|].
    apply searchLoop_found in E. unfold searchByEmail in Hin. rewrite E in Hin.
    by inversion Hin.
Qed.

Lemma searchByEmail_ignores_case_witness :
  let accounts : Store := <["1" := mkServiceAccount "p" "Foo@bar.com" "1" "active"]> ∅ in
  mkServiceAccount "p" "Foo@bar.com" "1" "active"
    ∈ (searchByEmail (λ s, s) accounts "foo").1.
Proof.
  intros accounts.
  refine (proj1 (proj2 (searchByEmail_ignores_case (λ s, s) accounts "1"
                          (mkServiceAccount "p" "Foo@bar.com" "1" "active") _)
                   "foo" "" "Foo" "@bar.com" _ _ _ _)); done.
Defined.

Lemma no_permit_no_return_witness :
  let projects := [Examples.project "p1"] in
  ¬ returned (start projects ∅ []).
Proof.
  intros projects.
  by apply (no_permit_no_return Examples.directory projects ∅ [] []).
Defined.
